(** * PTB data loader ([research/maskgan/data/ptb_loader.py])

    A shallow embedding of the loader's vocabulary construction
    ([build_vocab]), encoding ([_file_to_word_ids]) and batching
    ([ptb_iterator]), with the properties of these functions.

    Python [int] is [Z]; [str] is [string], a text whose characters have code
    points below 256 (compared by code point, as Python compares it); a
    [dict] is a [gmap]; a [collections.Counter] is an association list in
    insertion order (the order [items()] walks it); a NumPy array of dtype
    [int32] is a list of [Z], each entry reduced to the 32-bit range where the
    array is created, and a call that creates one can raise; a matrix is a
    list of rows.
    The module globals [EOS_INDEX] and [PAD_INDEX] and the lines written by
    [print] are explicit state, threaded by a state-and-exception monad. *)

From Stdlib Require Import ZArith String Ascii List Permutation Sorted Lia.
From stdpp Require Import gmap strings list fin_maps sorting.

Set Warnings "-clear-no-such-hyp".

(** ** Python and NumPy primitives used by the loader *)

Module Py.

(** The exceptions the loader can end with. *)
Inductive exn : Type :=
  | ValueError
  | KeyError (key : string)
  | NotImplementedError
  | ZeroDivisionError
  | OverflowError.

(** The values a caller passes as [epoch_size_override]. *)
Inductive pyval : Type :=
  | PyNone
  | PyBool (b : bool)
  | PyInt (z : Z)
  | PyStr (s : string).

(** Truth value testing, as [if v:] does it. *)
Definition truthy (v : pyval) : bool :=
  match v with
  | PyNone => false
  | PyBool b => b
  | PyInt z => negb (z =? 0)%Z
  | PyStr s => negb (String.eqb s EmptyString)
  end.

(** [(a1, b1) < (a2, b2)] on tuples of an [int] and a [str]. *)
Definition tuple_ltb (p q : Z * string) : bool :=
  (p.1 <? q.1)%Z || ((p.1 =? q.1)%Z && String.ltb p.2 q.2).

(** [sorted(l, key=key)]: a stable sort that compares keys with [<] only. *)
Fixpoint insort {A K : Type} (ltb : K → K → bool) (key : A → K)
    (x : A) (l : list A) : list A :=
  match l with
  | [] => [x]
  | y :: l' =>
      if ltb (key y) (key x) then y :: insort ltb key x l' else x :: y :: l'
  end.

Fixpoint sorted {A K : Type} (ltb : K → K → bool) (key : A → K)
    (l : list A) : list A :=
  match l with
  | [] => []
  | x :: l' => insort ltb key x (sorted ltb key l')
  end.

(** [collections.Counter(data)]: one entry per distinct element, in order of
    first occurrence, with the number of its occurrences. *)
Fixpoint counter_incr (w : string) (c : list (string * Z)) : list (string * Z) :=
  match c with
  | [] => [(w, 1%Z)]
  | (k, n) :: c' =>
      if String.eqb k w then (k, (n + 1)%Z) :: c' else (k, n) :: counter_incr w c'
  end.

Definition Counter (data : list string) : list (string * Z) :=
  fold_left (λ c w, counter_incr w c) data [].

(** [range(n)] for an [int] n. *)
Definition range (n : Z) : list Z := Z.of_nat <$> seq 0 (Z.to_nat n).

(** [len(l)]. *)
Definition len {A : Type} (l : list A) : Z := Z.of_nat (length l).

(** [dict(pairs)]: later pairs overwrite earlier ones with the same key. *)
Definition dict (pairs : list (string * Z)) : gmap string Z :=
  fold_left (λ m kv, <[kv.1 := kv.2]> m) pairs ∅.

(** [l[a:b]] with Python's treatment of negative and out-of-range bounds. *)
Definition slice_index (n i : Z) : Z :=
  if (i <? 0)%Z then Z.max (i + n) 0 else Z.min i n.

Definition slice {A : Type} (a b : Z) (l : list A) : list A :=
  let lo := slice_index (len l) a in
  let hi := slice_index (len l) b in
  take (Z.to_nat (hi - lo)) (drop (Z.to_nat lo) l).

(** [l[:b]] and [l[a:]]. *)
Definition slice_to {A : Type} (b : Z) (l : list A) : list A := slice 0 b l.
Definition slice_from {A : Type} (a : Z) (l : list A) : list A := slice a (len l) l.

(** A Python [int] that fits a C [long] of 64 bits. NumPy converts an [int]
    to [np.int32] through a C [long]: outside this range the conversion
    raises [OverflowError]. *)
Definition fits_c_long (z : Z) : bool := ((- 2 ^ 63 <=? z) && (z <? 2 ^ 63))%Z.

(** What the conversion of a Python [int] that fits a C [long] stores in an
    [np.int32]: the value reduced to the 32-bit two's-complement range, as the
    NumPy releases of the loader's time do it. On a value inside that range,
    such as the ids of a vocabulary, it is the identity, with every NumPy. *)
Definition int32 (z : Z) : Z := ((z + 2 ^ 31) mod 2 ^ 32 - 2 ^ 31)%Z.

(** The entries of the array [np.array(l, dtype=np.int32)], when the call
    returns one. *)
Definition np_array_int32 (l : list Z) : list Z := int32 <$> l.

(** The call [np.array(l, dtype=np.int32)]: [OverflowError] when an entry
    does not fit a C [long], the array otherwise. *)
Definition np_array_result (l : list Z) : exn + list Z :=
  if forallb fits_c_long l then inr (np_array_int32 l) else inl OverflowError.

(** [np.where(a == v)[0]]: the positions of the entries equal to v. *)
Fixpoint np_where_eq_from (i : Z) (a : list Z) (v : Z) : list Z :=
  match a with
  | [] => []
  | x :: a' =>
      if (x =? v)%Z then i :: np_where_eq_from (i + 1) a' v
      else np_where_eq_from (i + 1) a' v
  end.

Definition np_where_eq (a : list Z) (v : Z) : list Z := np_where_eq_from 0 a v.

(** [np.split(a, indices)]: the pieces [a[0:i1]], [a[i1:i2]], ..., [a[ik:]]. *)
Fixpoint np_split_from (st : Z) (a : list Z) (indices : list Z) : list (list Z) :=
  match indices with
  | [] => [slice st (len a) a]
  | e :: rest => slice st e a :: np_split_from e a rest
  end.

Definition np_split (a : list Z) (indices : list Z) : list (list Z) :=
  np_split_from 0 a indices.

(** The matrix [np.full([rows, cols], v, dtype=np.int32)], when the call
    returns one. *)
Definition np_full (rows cols : Z) (v : Z) : list (list Z) :=
  replicate (Z.to_nat rows) (replicate (Z.to_nat cols) (int32 v)).

(** The call [np.full([rows, cols], v, dtype=np.int32)]. The allocation comes
    first: [ValueError] for a negative dimension, and for a matrix whose
    [rows * cols] entries of 4 bytes do not fit the 63 bits of a size. Then
    the fill value is converted: [OverflowError] when it does not fit a C
    [long]. Running out of memory for a matrix that passes these tests is
    outside the model. *)
Definition np_full_result (rows cols : Z) (v : Z) : exn + list (list Z) :=
  if ((rows <? 0) || (cols <? 0))%Z then inl ValueError
  else if (2 ^ 63 <=? rows * cols * 4)%Z then inl ValueError
  else if fits_c_long v then inr (np_full rows cols v)
  else inl OverflowError.

(** [np.ones_like(m)]. *)
Definition np_ones_like (m : list (list Z)) : list (list Z) :=
  (λ row : list Z, (λ _ : Z, 1%Z) <$> row) <$> m.

(** [row[:len(sent)] = sent], for [sent] no longer than [row]. *)
Definition assign_prefix (sent row : list Z) : list Z :=
  sent ++ drop (length sent) row.

(** [m[a:b, cols]], where [cols] is the slice taken of each row. *)
Definition slice2 (a b : Z) (cols : list Z → list Z) (m : list (list Z))
    : list (list Z) :=
  cols <$> slice a b m.

End Py.

(** ** The loader *)

Module PtbLoader.
Import Py.

(** Module state: the two marker ids (both [0] when the module is loaded) and
    the lines [print] has written, oldest first. *)
Record globals : Type := mkGlobals {
  EOS_INDEX : Z;
  PAD_INDEX : Z;
  stdout : list (string * Z)
}.

Definition initial_globals : globals :=
  {| EOS_INDEX := 0; PAD_INDEX := 0; stdout := [] |}.

(** A call either returns a value or raises; either way it leaves a state. *)
Inductive result (A : Type) : Type :=
  | Ok (a : A)
  | Raise (e : exn).
Arguments Ok {A} a.
Arguments Raise {A} e.

Definition M (A : Type) : Type := globals → result A * globals.

#[export] Instance M_ret : MRet M := λ A a g, (Ok a, g).
#[export] Instance M_bind : MBind M := λ A B f m g,
  match m g with
  | (Ok a, g') => f a g'
  | (Raise e, g') => (Raise e, g')
  end.

Definition raise {A : Type} (e : exn) : M A := λ g, (Raise e, g).
Definition print (label : string) (v : Z) : M unit :=
  λ g, (Ok (), {| EOS_INDEX := EOS_INDEX g; PAD_INDEX := PAD_INDEX g;
                  stdout := stdout g ++ [(label, v)] |}).
Definition set_EOS_INDEX (v : Z) : M unit :=
  λ g, (Ok (), {| EOS_INDEX := v; PAD_INDEX := PAD_INDEX g; stdout := stdout g |}).
Definition set_PAD_INDEX (v : Z) : M unit :=
  λ g, (Ok (), {| EOS_INDEX := EOS_INDEX g; PAD_INDEX := v; stdout := stdout g |}).

(** [d[key]]: raises [KeyError] for an absent key. *)
Definition getitem (d : gmap string Z) (key : string) : M Z :=
  match d !! key with
  | Some v => mret v
  | None => raise (KeyError key)
  end.

(** Line 45 of [build_vocab], the unpacking of the transposed [count_pairs]
    into [words] and the counts: the transposition of an empty list is empty,
    and unpacking it into two names raises [ValueError]. *)
Definition unzip_words (count_pairs : list (string * Z)) : M (list string) :=
  match count_pairs with
  | [] => raise ValueError
  | _ :: _ => mret (count_pairs.*1)
  end.

(** The characters [str.split()] cuts at, among the code points below 256:
    tab to carriage return (9-13), the four separators 28-31, the space (32),
    next line (133) and the no-break space (160). *)
Definition is_space (c : ascii) : bool :=
  let n := nat_of_ascii c in
  ((9 <=? n) && (n <=? 13)) || ((28 <=? n) && (n <=? 32)) ||
  (n =? 133) || (n =? 160).

(** The replacement of every newline by the two markers in [_read_words]. *)
Fixpoint replace_newlines (s : string) : string :=
  match s with
  | EmptyString => EmptyString
  | String c s' =>
      if (nat_of_ascii c =? 10) then (" <eos> <pad>" +:+ replace_newlines s')
      else String c (replace_newlines s')
  end.

(** [s.split()]: the maximal runs of non-space characters. [cur] is the run
    being read, in reverse. *)
Fixpoint split_ws (cur : list ascii) (s : string) : list string :=
  let flush := match cur with
               | [] => []
               | _ :: _ => [string_of_list_ascii (rev cur)]
               end in
  match s with
  | EmptyString => flush
  | String c s' =>
      if is_space c then flush ++ split_ws [] s' else split_ws (c :: cur) s'
  end.

(** [_read_words], applied to the text that [f.read()] returned. *)
Definition _read_words (text : string) : list string :=
  split_ws [] (replace_newlines text).

(** The sort key [lambda x: (-x[1], x[0])]. *)
Definition count_key (x : string * Z) : Z * string := ((- x.2)%Z, x.1).

(** Lines 42-43 of [build_vocab]. *)
Definition count_pairs_of (data : list string) : list (string * Z) :=
  sorted tuple_ltb count_key (Counter data).

(** Line 46 of [build_vocab]. *)
Definition word_to_id_of (words : list string) : gmap string Z :=
  dict (zip words (range (len words))).

(** [build_vocab]; [data] is what [_read_words(filename)] returned. *)
Definition build_vocab (data : list string) : M (gmap string Z) :=
  let count_pairs := count_pairs_of data in
  words ← unzip_words count_pairs;
  let word_to_id := word_to_id_of words in
  eos ← getitem word_to_id "<eos>";
  _ ← print "<eos>:" eos;
  pad ← getitem word_to_id "<pad>";
  _ ← print "<pad>:" pad;
  eos' ← getitem word_to_id "<eos>";
  _ ← set_EOS_INDEX eos';
  pad' ← getitem word_to_id "<pad>";
  _ ← set_PAD_INDEX pad';
  mret word_to_id.

(** [_file_to_word_ids]; [data] is what [_read_words(filename)] returned.
    The lookup [word_to_id[word]] is only made for a word that passed the
    test [word in word_to_id], so it cannot raise. *)
Definition _file_to_word_ids (data : list string) (word_to_id : gmap string Z)
    : list Z :=
  (λ word, word_to_id !!! word) <$> filter (λ word, word ∈ dom word_to_id) data.

(** [ptb_raw_data], on the words of the three files. *)
Definition ptb_raw_data (train valid test : list string)
    : M (list Z * list Z * list Z * Z) :=
  word_to_id ← build_vocab train;
  let train_data := _file_to_word_ids train word_to_id in
  let valid_data := _file_to_word_ids valid word_to_id in
  let test_data := _file_to_word_ids test word_to_id in
  let vocabulary := Z.of_nat (size word_to_id) in
  mret (train_data, valid_data, test_data, vocabulary).

(** Line 109 of [ptb_iterator]: the array cut after every entry equal to
    [EOS_INDEX]. *)
Definition split_sentences (raw_data : list Z) (g : globals) : list (list Z) :=
  np_split raw_data ((λ i, (i + 1)%Z) <$> np_where_eq raw_data (EOS_INDEX g)).

(** Lines 107-109: the sentences of a stream, cut from the array that line
    107 makes of it. *)
Definition sentences_of (raw_data : list Z) (g : globals) : list (list Z) :=
  split_sentences (np_array_int32 raw_data) g.

(** Lines 114-116 of [ptb_iterator]: the loop that writes the sentences into
    the rows of [data]. [i] runs over [range(sentence_len)], where both
    [sentences[i]] and [data[i]] exist. *)
Definition fill_row (sentences : list (list Z)) (sequence_length : Z)
    (data : list (list Z)) (i : Z) : list (list Z) :=
  match sentences !! Z.to_nat i, data !! Z.to_nat i with
  | Some s, Some row =>
      let sent := slice_to (sequence_length + 1) s in
      <[Z.to_nat i := assign_prefix sent row]> data
  | _, _ => data
  end.

Definition fill_rows (sentences : list (list Z)) (sequence_length : Z)
    (data : list (list Z)) : list (list Z) :=
  fold_left (fill_row sentences sequence_length) (range (len sentences)) data.

(** Lines 113-116: the padded sentence matrix, filled into the matrix that
    line 113 allocates. *)
Definition padded_matrix (sentences : list (list Z)) (sequence_length : Z)
    (g : globals) : list (list Z) :=
  fill_rows sentences sequence_length
    (np_full (len sentences) (sequence_length + 1) (PAD_INDEX g)).

(** A yielded triple [(x, y, w)]. *)
Definition batch : Type := list (list Z) * list (list Z) * list (list Z).

(** Lines 124-126: the body of the batching loop. *)
Definition make_batch (data : list (list Z)) (batch_size : Z) (i : Z) : batch :=
  let x := slice2 (i * batch_size) ((i + 1) * batch_size) (slice_to (-1)) data in
  let y := slice2 (i * batch_size) ((i + 1) * batch_size) (slice_from 1) data in
  let w := np_ones_like x in
  (x, y, w).

(** [ptb_iterator], run to its end: the batches it yields, in order, and the
    exception that ends the iteration, if one does. Nothing runs before the
    first [next()], so an exception raised before the first [yield] reaches
    the caller there. The calls of lines 107 and 113 can raise, and come
    before the test of the override; [//] refuses a zero divisor. *)
Definition ptb_iterator (raw_data : list Z) (batch_size sequence_length : Z)
    (epoch_size_override : pyval) (g : globals) : list batch * option exn :=
  match np_array_result raw_data with
  | inl e => ([], Some e)
  | inr raw_data =>
      let sentences := split_sentences raw_data g in
      let sentence_len := len sentences in
      match np_full_result sentence_len (sequence_length + 1) (PAD_INDEX g) with
      | inl e => ([], Some e)
      | inr data =>
          let data := fill_rows sentences sequence_length data in
          if truthy epoch_size_override then ([], Some NotImplementedError) else
          if (batch_size =? 0)%Z then ([], Some ZeroDivisionError) else
          let epoch_size := (sentence_len / batch_size)%Z in
          (make_batch data batch_size <$> range epoch_size, None)
      end
  end.

End PtbLoader.

Import Py PtbLoader.

(** ** Notions used to state the properties *)

(** [x] is strictly before [y] in the order [sorted] compares keys with. *)
Definition key_lt {A K : Type} (ltb : K → K → bool) (key : A → K) (x y : A) : Prop :=
  ltb (key x) (key y) = true.

(** The number of occurrences of [w] in [data]. *)
Definition count (data : list string) (w : string) : Z :=
  Z.of_nat (length (filter (λ x, x = w) data)).

(** [w1] comes before [w2] in the order of line 43: more occurrences first,
    and among words with the same number of occurrences the smaller string
    first. *)
Definition ranks_before (data : list string) (w1 w2 : string) : Prop :=
  (count data w2 < count data w1)%Z ∨
  (count data w1 = count data w2 ∧ String.ltb w1 w2 = true).

(** The state [build_vocab] leaves when it returns. *)
Definition globals_after (g : globals) (eos pad : Z) : globals :=
  {| EOS_INDEX := eos; PAD_INDEX := pad;
     stdout := stdout g ++ [("<eos>:"%string, eos); ("<pad>:"%string, pad)] |}.

(** The inverse mapping, from id to word, of a vocabulary. *)
Definition id_to_word (word_to_id : gmap string Z) : gmap Z string :=
  list_to_map ((λ kv, (kv.2, kv.1)) <$> map_to_list word_to_id).

(** The cut of a stream immediately after every entry equal to [eos], read
    left to right; [cur] is the piece being read. *)
Fixpoint cut_after (eos : Z) (cur l : list Z) : list (list Z) :=
  match l with
  | [] => [cur]
  | x :: l' =>
      if (x =? eos)%Z then (cur ++ [x]) :: cut_after eos [] l'
      else cut_after eos (cur ++ [x]) l'
  end.

(** A sentence cut to [width] entries and filled up to [width] with [pad]. *)
Definition pad_row (width : nat) (pad : Z) (s : list Z) : list Z :=
  take width s ++ replicate (width - length (take width s)) pad.

(** Rows [i * batch_size, (i + 1) * batch_size) of a matrix. *)
Definition row_block (data : list (list Z)) (batch_size : Z) (i : nat)
    : list (list Z) :=
  take (Z.to_nat batch_size) (drop (i * Z.to_nat batch_size) data).

(** The corpus of the worked example. *)
Definition worked_corpus : string := "a b <eos> c <eos>".

(** Two lines of text, ["a"] and [" b"], each ended by a newline. *)
Definition two_lines : string :=
  "a" +:+ String "010"%char (" b" +:+ String "010"%char EmptyString).


(** ** The order on strings and on sort keys *)

Section StringOrder.

Lemma ascii_compare_refl (a : ascii) : Ascii.compare a a = Eq.
Proof. unfold Ascii.compare. apply N.compare_refl. Qed.

Lemma ascii_compare_lt_trans (a b c : ascii) :
  Ascii.compare a b = Lt → Ascii.compare b c = Lt → Ascii.compare a c = Lt.
Proof.
  unfold Ascii.compare. rewrite !N.compare_lt_iff. apply N.lt_trans.
Qed.

Lemma string_compare_refl (s : string) : String.compare s s = Eq.
Proof.
  induction s as [|a s IH]; simpl; [done|].
  by rewrite ascii_compare_refl.
Qed.

Lemma string_compare_lt_trans (s1 s2 s3 : string) :
  String.compare s1 s2 = Lt → String.compare s2 s3 = Lt →
  String.compare s1 s3 = Lt.
Proof.
  revert s2 s3.
  induction s1 as [|a s1 IH]; intros [|b s2] [|c s3]; simpl; try done.
  destruct (Ascii.compare a b) eqn:Hab; try done;
    destruct (Ascii.compare b c) eqn:Hbc; try done; intros H12 H23.
  - apply Ascii.compare_eq_iff in Hab, Hbc. subst.
    rewrite ascii_compare_refl. by eapply IH.
  - apply Ascii.compare_eq_iff in Hab. subst. by rewrite Hbc.
  - apply Ascii.compare_eq_iff in Hbc. subst. by rewrite Hab.
  - by rewrite (ascii_compare_lt_trans a b c).
Qed.

Lemma string_ltb_irrefl (s : string) : String.ltb s s = false.
Proof. unfold String.ltb. by rewrite string_compare_refl. Qed.

Lemma string_ltb_trans (s1 s2 s3 : string) :
  String.ltb s1 s2 = true → String.ltb s2 s3 = true → String.ltb s1 s3 = true.
Proof.
  unfold String.ltb.
  destruct (String.compare s1 s2) eqn:H12; try done.
  destruct (String.compare s2 s3) eqn:H23; try done.
  by rewrite (string_compare_lt_trans s1 s2 s3).
Qed.

Lemma string_ltb_total (s1 s2 : string) :
  s1 ≠ s2 → String.ltb s1 s2 = true ∨ String.ltb s2 s1 = true.
Proof.
  intros Hne. unfold String.ltb. rewrite (String.compare_antisym s2 s1).
  destruct (String.compare s1 s2) eqn:H12; simpl; auto.
  by apply String.compare_eq_iff in H12.
Qed.

Lemma tuple_ltb_spec (p q : Z * string) :
  tuple_ltb p q = true ↔
  (p.1 < q.1)%Z ∨ (p.1 = q.1 ∧ String.ltb p.2 q.2 = true).
Proof.
  unfold tuple_ltb.
  rewrite orb_true_iff, andb_true_iff, Z.ltb_lt, Z.eqb_eq. tauto.
Qed.

Lemma tuple_ltb_irrefl (p : Z * string) : tuple_ltb p p = false.
Proof.
  apply not_true_is_false. rewrite tuple_ltb_spec, string_ltb_irrefl.
  intros [?|[_ ?]]; [lia|done].
Qed.

Lemma tuple_ltb_trans (p q r : Z * string) :
  tuple_ltb p q = true → tuple_ltb q r = true → tuple_ltb p r = true.
Proof.
  rewrite !tuple_ltb_spec.
  intros [?|[? Hpq]] [?|[? Hqr]]; try (left; lia).
  right. split; [lia|]. by eapply string_ltb_trans.
Qed.

Lemma tuple_ltb_total (p q : Z * string) :
  p ≠ q → tuple_ltb p q = true ∨ tuple_ltb q p = true.
Proof.
  destruct p as [a s], q as [b t]. intros Hne. rewrite !tuple_ltb_spec. simpl.
  destruct (Z.lt_trichotomy a b) as [?|[->|?]]; [by auto| |by auto].
  destruct (string_ltb_total s t) as [?|?]; [congruence|by auto..].
Qed.

End StringOrder.

(** ** 32-bit entries *)

Lemma int32_range (z : Z) : (- 2 ^ 31 ≤ int32 z < 2 ^ 31)%Z.
Proof. unfold int32. pose proof (Z.mod_pos_bound (z + 2 ^ 31) (2 ^ 32)). lia. Qed.

Lemma int32_small (z : Z) : (- 2 ^ 31 ≤ z < 2 ^ 31)%Z → int32 z = z.
Proof. intros Hz. unfold int32. rewrite Z.mod_small by lia. lia. Qed.

(** ** [sorted] on keys that are pairwise distinct *)

Section SortedFacts.
Context {A K : Type} (ltb : K → K → bool) (key : A → K).
Hypothesis ltb_irrefl : ∀ a, ltb a a = false.
Hypothesis ltb_trans : ∀ a b c, ltb a b = true → ltb b c = true → ltb a c = true.
Hypothesis ltb_total : ∀ a b, a ≠ b → ltb a b = true ∨ ltb b a = true.

Local Abbreviation key_lt := (key_lt ltb key).

Lemma insort_perm (x : A) (l : list A) : insort ltb key x l ≡ₚ x :: l.
Proof.
  induction l as [|y l IH]; simpl; [done|].
  destruct (ltb (key y) (key x)); [|done].
  rewrite IH. apply perm_swap.
Qed.

Lemma sorted_perm (l : list A) : sorted ltb key l ≡ₚ l.
Proof.
  induction l as [|x l IH]; simpl; [done|].
  by rewrite insort_perm, IH.
Qed.

Lemma insort_strict (x : A) (l : list A) :
  Forall (λ y, key y ≠ key x) l →
  StronglySorted key_lt l → StronglySorted key_lt (insort ltb key x l).
Proof.
  intros Hne Hs. induction Hs as [|y l Hs IH Hy]; simpl.
  { repeat constructor. }
  apply Forall_cons in Hne as [Hyx Hne].
  destruct (ltb (key y) (key x)) eqn:Hlt.
  - constructor; [by apply IH|].
    rewrite insort_perm. by constructor.
  - assert (key_lt x y) as Hxy.
    { destruct (ltb_total (key y) (key x)) as [?|?]; [done|congruence|done]. }
    constructor; [by constructor|].
    constructor; [done|].
    eapply Forall_impl; [exact Hy|]. intros z Hz. by eapply ltb_trans.
Qed.

Lemma sorted_strict (l : list A) :
  NoDup (key <$> l) → StronglySorted key_lt (sorted ltb key l).
Proof.
  induction l as [|x l IH]; simpl; [constructor|].
  rewrite NoDup_cons. intros [Hx Hnd].
  apply insort_strict; [|by apply IH].
  rewrite sorted_perm. apply Forall_forall. intros y Hy Heq.
  apply Hx. rewrite <- Heq. by apply list_elem_of_fmap_2.
Qed.

Lemma strict_sorted_unique (l1 l2 : list A) :
  StronglySorted key_lt l1 → StronglySorted key_lt l2 → l1 ≡ₚ l2 → l1 = l2.
Proof.
  apply StronglySorted_unique_strong.
  intros x y _ _ Hxy Hyx. exfalso.
  pose proof (ltb_trans _ _ _ Hxy Hyx) as Hxx.
  rewrite ltb_irrefl in Hxx. done.
Qed.

(** On distinct keys the result does not depend on the order of the input. *)
Lemma sorted_perm_eq (l1 l2 : list A) :
  NoDup (key <$> l1) → l1 ≡ₚ l2 → sorted ltb key l1 = sorted ltb key l2.
Proof.
  intros Hnd Hp. apply strict_sorted_unique.
  - by apply sorted_strict.
  - apply sorted_strict. by rewrite <- Hp.
  - by rewrite !sorted_perm.
Qed.

Lemma strict_sorted_lookup (l : list A) (i j : nat) (x y : A) :
  StronglySorted key_lt l → l !! i = Some x → l !! j = Some y →
  i < j → key_lt x y.
Proof.
  intros Hs. revert i j. induction Hs as [|z l Hs IH Hz]; intros i j Hi Hj Hij.
  { done. }
  destruct j as [|j]; [lia|]. destruct i as [|i]; simpl in *.
  - injection Hi as ->. rewrite Forall_forall in Hz.
    apply Hz. by eapply list_elem_of_lookup_2.
  - eapply IH; [done..|lia].
Qed.

End SortedFacts.

(** ** [Counter] and [dict] *)

Section CounterFacts.

Lemma count_snoc (data : list string) (w v : string) :
  count (data ++ [v]) w = (count data w + (if decide (v = w) then 1 else 0))%Z.
Proof.
  unfold count. rewrite filter_app, length_app, Nat2Z.inj_add. f_equal.
  rewrite filter_cons, filter_nil. by destruct (decide (v = w)).
Qed.

Lemma count_perm (data data' : list string) (w : string) :
  data ≡ₚ data' → count data w = count data' w.
Proof. intros Hp. unfold count. by rewrite Hp. Qed.

Lemma count_pos (data : list string) (w : string) :
  w ∈ data ↔ (0 < count data w)%Z.
Proof.
  unfold count. split.
  - intros Hin.
    assert (w ∈ filter (λ x, x = w) data) as Hf by (by apply list_elem_of_filter).
    destruct (filter (λ x, x = w) data); [by apply not_elem_of_nil in Hf|].
    simpl. lia.
  - intros Hpos.
    destruct (filter (λ x, x = w) data) as [|x l] eqn:Hf; [simpl in Hpos; lia|].
    assert (x ∈ filter (λ x, x = w) data) as Hx by (rewrite Hf; left).
    apply list_elem_of_filter in Hx as [-> ?]. done.
Qed.

Lemma count_nonneg (data : list string) (w : string) : (0 ≤ count data w)%Z.
Proof. unfold count. lia. Qed.

Lemma Counter_snoc (data : list string) (w : string) :
  Counter (data ++ [w]) = counter_incr w (Counter data).
Proof. unfold Counter. by rewrite fold_left_app. Qed.

Lemma counter_incr_keys (w : string) (c : list (string * Z)) :
  (counter_incr w c).*1 = if decide (w ∈ c.*1) then c.*1 else c.*1 ++ [w].
Proof.
  induction c as [|[k n] c IH]; [done|].
  cbn [counter_incr]. rewrite fmap_cons. cbn [fst].
  destruct (String.eqb_spec k w) as [Heq|Hne]; subst; rewrite fmap_cons; cbn [fst].
  - rewrite decide_True; [done|]. left.
  - rewrite IH. destruct (decide (w ∈ c.*1)) as [Hin|Hin].
    + rewrite decide_True; [done|]. by right.
    + rewrite decide_False; [done|]. rewrite elem_of_cons. by intros [?|?].
Qed.

Lemma counter_incr_to_map (w : string) (c : list (string * Z)) :
  (list_to_map (counter_incr w c) : gmap string Z) =
  <[w := (default 0 ((list_to_map c : gmap string Z) !! w) + 1)%Z]> (list_to_map c).
Proof.
  induction c as [|[k n] c IH]; simpl; [done|].
  destruct (String.eqb_spec k w) as [Heq|Hne]; subst; simpl.
  - by rewrite lookup_insert_eq, insert_insert_eq.
  - rewrite IH, lookup_insert_ne by done. by apply insert_insert_ne.
Qed.

(** The counter holds exactly the words of [data], once each, with their
    number of occurrences. *)
Lemma Counter_inv (data : list string) :
  NoDup (Counter data).*1 ∧
  (∀ w, w ∈ (Counter data).*1 ↔ w ∈ data) ∧
  (∀ w, (list_to_map (Counter data) : gmap string Z) !! w =
        if decide (w ∈ data) then Some (count data w) else None).
Proof.
  induction data as [|v data IH] using rev_ind.
  { split; [constructor|]. split; [done|]. intros w. done. }
  destruct IH as (Hnd & Hkeys & Hmap).
  rewrite Counter_snoc, counter_incr_keys, counter_incr_to_map.
  split; [|split].
  - destruct (decide (v ∈ (Counter data).*1)); [done|].
    apply NoDup_app. split; [done|]. split; [|apply NoDup_singleton].
    intros x Hx ->%list_elem_of_singleton. done.
  - intros w. rewrite elem_of_app, list_elem_of_singleton, <- Hkeys.
    destruct (decide (v ∈ (Counter data).*1));
      [|by rewrite elem_of_app, list_elem_of_singleton].
    split; [by left|]. by intros [?| ->].
  - intros w. rewrite count_snoc. destruct (decide (v = w)) as [->|Hne].
    + rewrite lookup_insert_eq, Hmap.
      rewrite (decide_True (P := w ∈ data ++ [w])) by set_solver.
      f_equal. destruct (decide (w ∈ data)) as [|Hnin]; [done|]. simpl.
      rewrite count_pos in Hnin. pose proof (count_nonneg data w). lia.
    + rewrite lookup_insert_ne, Hmap by done.
      destruct (decide (w ∈ data)) as [Hin|Hnin].
      * rewrite decide_True by set_solver. f_equal. lia.
      * rewrite decide_False by set_solver. done.
Qed.

Lemma Counter_elem_of (data : list string) (w : string) (n : Z) :
  (w, n) ∈ Counter data ↔ w ∈ data ∧ n = count data w.
Proof.
  destruct (Counter_inv data) as (Hnd & _ & Hmap).
  rewrite elem_of_list_to_map, Hmap by done.
  destruct (decide (w ∈ data)); naive_solver.
Qed.

Lemma Counter_perm (data data' : list string) :
  data ≡ₚ data' → Counter data ≡ₚ Counter data'.
Proof.
  intros Hp. apply NoDup_Permutation.
  - eapply NoDup_fmap_1, (Counter_inv data).
  - eapply NoDup_fmap_1, (Counter_inv data').
  - intros [w n]. rewrite !Counter_elem_of, (count_perm _ _ w Hp).
    by rewrite (elem_of_Permutation_proper w _ _ Hp).
Qed.

Lemma Counter_keys_NoDup (data : list string) :
  NoDup (count_key <$> Counter data).
Proof.
  apply (NoDup_fmap_1 snd). rewrite <- list_fmap_compose.
  apply (Counter_inv data).
Qed.

End CounterFacts.

Section DictFacts.

Lemma dict_fold_union (l : list (string * Z)) (m : gmap string Z) :
  NoDup l.*1 →
  fold_left (λ m kv, <[kv.1 := kv.2]> m) l m = list_to_map l ∪ m.
Proof.
  revert m. induction l as [|[k v] l IH]; intros m Hnd; simpl.
  { by rewrite (left_id_L ∅ (∪)). }
  rewrite fmap_cons in Hnd. apply NoDup_cons in Hnd as [Hk Hnd].
  rewrite IH by done. rewrite <- insert_union_l.
  symmetry. apply insert_union_r. by apply not_elem_of_list_to_map_1.
Qed.

Lemma dict_list_to_map (l : list (string * Z)) :
  NoDup l.*1 → dict l = list_to_map l.
Proof.
  intros Hnd. unfold dict. rewrite dict_fold_union by done.
  by rewrite (right_id_L ∅ (∪)).
Qed.

Lemma range_len {A : Type} (l : list A) :
  range (len l) = Z.of_nat <$> seq 0 (length l).
Proof. unfold range, len. by rewrite Nat2Z.id. Qed.

Lemma range_lookup (n : nat) (i : nat) (z : Z) :
  (Z.of_nat <$> seq 0 n) !! i = Some z ↔ i < n ∧ z = Z.of_nat i.
Proof.
  rewrite list_lookup_fmap, fmap_Some. setoid_rewrite lookup_seq.
  split; [intros (j & [-> ?] & ->); auto|intros [? ->]; eauto].
Qed.

Lemma zip_range_fst (words : list string) :
  (zip words (range (len words))).*1 = words.
Proof. apply fst_zip. rewrite range_len, length_fmap, length_seq. done. Qed.

Lemma zip_range_snd (words : list string) :
  (zip words (range (len words))).*2 = range (len words).
Proof. apply snd_zip. rewrite range_len, length_fmap, length_seq. done. Qed.

Lemma zip_range_elem_of (words : list string) (w : string) (z : Z) :
  (w, z) ∈ zip words (range (len words)) ↔
  ∃ i : nat, words !! i = Some w ∧ z = Z.of_nat i.
Proof.
  rewrite list_elem_of_lookup. rewrite range_len. split.
  - intros (i & Hi). apply lookup_zip_with_Some in Hi as (x & y & Heq & Hx & Hy).
    injection Heq as -> ->. apply range_lookup in Hy as [_ ->]. eauto.
  - intros (i & Hi & ->). exists i. apply lookup_zip_with_Some.
    exists w, (Z.of_nat i). split; [done|]. split; [done|].
    apply range_lookup. split; [|done]. by eapply lookup_lt_Some.
Qed.

(** The id of a word is its position in [words]. *)
Lemma word_to_id_of_lookup (words : list string) (w : string) (z : Z) :
  NoDup words →
  word_to_id_of words !! w = Some z ↔
  ∃ i : nat, words !! i = Some w ∧ z = Z.of_nat i.
Proof.
  intros Hnd. unfold word_to_id_of.
  rewrite dict_list_to_map by (by rewrite zip_range_fst).
  rewrite <- elem_of_list_to_map by (by rewrite zip_range_fst).
  apply zip_range_elem_of.
Qed.

Lemma word_to_id_of_is_Some (words : list string) (w : string) :
  NoDup words → is_Some (word_to_id_of words !! w) ↔ w ∈ words.
Proof.
  intros Hnd. rewrite list_elem_of_lookup. unfold is_Some.
  setoid_rewrite (word_to_id_of_lookup words w _ Hnd). naive_solver.
Qed.

Lemma word_to_id_of_values (words : list string) :
  NoDup words →
  (map_to_list (word_to_id_of words)).*2 ≡ₚ range (len words).
Proof.
  intros Hnd. unfold word_to_id_of.
  rewrite dict_list_to_map by (by rewrite zip_range_fst).
  rewrite map_to_list_to_map by (by rewrite zip_range_fst).
  by rewrite zip_range_snd.
Qed.

Lemma word_to_id_of_size (words : list string) :
  NoDup words → size (word_to_id_of words) = length words.
Proof.
  intros Hnd.
  rewrite <- length_map_to_list, <- (length_fmap snd).
  rewrite (word_to_id_of_values words Hnd), range_len.
  by rewrite length_fmap, length_seq.
Qed.

End DictFacts.

(** ** Vocabulary construction *)

Section VocabFacts.

Abbreviation count_lt := (key_lt tuple_ltb count_key).

Lemma count_pairs_perm (data : list string) : count_pairs_of data ≡ₚ Counter data.
Proof. apply sorted_perm. Qed.

Lemma count_pairs_sorted (data : list string) :
  StronglySorted count_lt (count_pairs_of data).
Proof.
  apply sorted_strict; [apply tuple_ltb_trans|apply tuple_ltb_total|].
  apply Counter_keys_NoDup.
Qed.

Lemma count_pairs_of_perm_eq (data data' : list string) :
  data ≡ₚ data' → count_pairs_of data = count_pairs_of data'.
Proof.
  intros Hp. apply (sorted_perm_eq tuple_ltb count_key).
  - apply tuple_ltb_irrefl.
  - apply tuple_ltb_trans.
  - apply tuple_ltb_total.
  - apply Counter_keys_NoDup.
  - by apply Counter_perm.
Qed.

Lemma count_pairs_elem_of (data : list string) (w : string) (n : Z) :
  (w, n) ∈ count_pairs_of data ↔ w ∈ data ∧ n = count data w.
Proof.
  rewrite (elem_of_Permutation_proper _ _ _ (count_pairs_perm data)).
  apply Counter_elem_of.
Qed.

Lemma count_pairs_nil (data : list string) :
  count_pairs_of data = [] ↔ data = [].
Proof.
  split; [|by intros ->].
  destruct data as [|w data]; [done|]. intros Hnil.
  assert ((w, count (w :: data) w) ∈ count_pairs_of (w :: data)) as Hin.
  { apply count_pairs_elem_of. split; [left|done]. }
  rewrite Hnil in Hin. by apply not_elem_of_nil in Hin.
Qed.

Lemma vocab_words_NoDup (data : list string) : NoDup (count_pairs_of data).*1.
Proof.
  rewrite (count_pairs_perm data). apply (Counter_inv data).
Qed.

Lemma vocab_words_elem_of (data : list string) (w : string) :
  w ∈ (count_pairs_of data).*1 ↔ w ∈ data.
Proof.
  rewrite (elem_of_Permutation_proper w _ _
             (fmap_Permutation fst _ _ (count_pairs_perm data))).
  apply (Counter_inv data).
Qed.

Lemma vocab_words_lookup (data : list string) (i : nat) (w : string) :
  (count_pairs_of data).*1 !! i = Some w →
  count_pairs_of data !! i = Some (w, count data w).
Proof.
  rewrite list_lookup_fmap, fmap_Some. intros ([w' n] & Hi & ->). simpl.
  assert ((w', n) ∈ count_pairs_of data) as Hin by (by eapply list_elem_of_lookup_2).
  apply count_pairs_elem_of in Hin as [_ ->]. done.
Qed.

Lemma ranks_before_key (data : list string) (w1 w2 : string) :
  count_lt (w1, count data w1) (w2, count data w2) ↔ ranks_before data w1 w2.
Proof.
  unfold key_lt, ranks_before, count_key. rewrite tuple_ltb_spec. simpl.
  split; (intros [?|[? ?]]; [left; lia|right; split; [lia|done]]).
Qed.

Lemma ranks_before_asym (data : list string) (w1 w2 : string) :
  ranks_before data w1 w2 → ranks_before data w2 w1 → False.
Proof.
  rewrite <- !ranks_before_key. unfold key_lt. intros H12 H21.
  pose proof (tuple_ltb_trans _ _ _ H12 H21) as Hxx.
  by rewrite tuple_ltb_irrefl in Hxx.
Qed.

Lemma vocab_words_order (data : list string) (i j : nat) (w1 w2 : string) :
  (count_pairs_of data).*1 !! i = Some w1 →
  (count_pairs_of data).*1 !! j = Some w2 →
  i < j ↔ ranks_before data w1 w2.
Proof.
  intros Hi Hj.
  assert (∀ i j w1 w2,
    (count_pairs_of data).*1 !! i = Some w1 →
    (count_pairs_of data).*1 !! j = Some w2 →
    i < j → ranks_before data w1 w2) as Hlt.
  { clear. intros i j w1 w2 Hi%vocab_words_lookup Hj%vocab_words_lookup Hij.
    apply ranks_before_key.
    by eapply (strict_sorted_lookup tuple_ltb count_key), Hij;
      [apply count_pairs_sorted|..]. }
  split; [by eapply Hlt|]. intros Hr.
  destruct (Nat.lt_trichotomy i j) as [?|[->|Hji]]; [done|..]; exfalso.
  - rewrite Hi in Hj. injection Hj as ->. by eapply ranks_before_asym.
  - eapply ranks_before_asym; [exact Hr|]. by eapply Hlt, Hji.
Qed.

(** What [build_vocab] does, case by case. *)
Lemma build_vocab_run (data : list string) (g : globals) :
  let word_to_id := word_to_id_of (count_pairs_of data).*1 in
  build_vocab data g =
    match data with
    | [] => (Raise ValueError, g)
    | _ :: _ =>
        match word_to_id !! "<eos>"%string with
        | None => (Raise (KeyError "<eos>"), g)
        | Some eos =>
            match word_to_id !! "<pad>"%string with
            | None =>
                (Raise (KeyError "<pad>"),
                 {| EOS_INDEX := EOS_INDEX g; PAD_INDEX := PAD_INDEX g;
                    stdout := stdout g ++ [("<eos>:"%string, eos)] |})
            | Some pad => (Ok word_to_id, globals_after g eos pad)
            end
        end
    end.
Proof.
  intros word_to_id. unfold build_vocab.
  destruct data as [|w data].
  { done. }
  subst word_to_id.
  destruct (count_pairs_of (w :: data)) as [|p ps] eqn:Hps.
  { by apply count_pairs_nil in Hps. }
  cbv [unzip_words mbind M_bind mret M_ret].
  set (word_to_id := word_to_id_of _).
  unfold getitem.
  destruct (word_to_id !! "<eos>"%string) as [eos|] eqn:Heos;
    cbv [mret M_ret raise print set_EOS_INDEX set_PAD_INDEX]; [|done].
  destruct (word_to_id !! "<pad>"%string) as [pad|] eqn:Hpad;
    cbv [mret M_ret raise print set_EOS_INDEX set_PAD_INDEX]; [|done].
  unfold globals_after. simpl. by rewrite <- app_assoc.
Qed.

End VocabFacts.

Lemma build_vocab_Ok_inv (data : list string) (g g' : globals)
    (word_to_id : gmap string Z) :
  build_vocab data g = (Ok word_to_id, g') →
  word_to_id = word_to_id_of (count_pairs_of data).*1.
Proof.
  rewrite build_vocab_run. destruct data as [|w data]; [done|].
  destruct (_ !! "<eos>"%string); [|done].
  destruct (_ !! "<pad>"%string); [|done].
  by intros [= <- _].
Qed.

(** C1. For every list of words, the mapping that [build_vocab] builds on
    line 46, which is the mapping it returns whenever it returns and which it
    does return when both markers are among the words, has the distinct words
    as keys and a permutation of 0..N-1 (N the number of distinct words) as
    ids, smaller ids going to words with more occurrences and, among words
    with the same number of occurrences, to the smaller string; the first
    word of that order has id 0; and the outcome of [build_vocab] depends only
    on the multiset of the words. *)
Theorem build_vocab_ids (data : list string) (g : globals) :
  let word_to_id := word_to_id_of (count_pairs_of data).*1 in
  (∀ w g', build_vocab data g = (Ok w, g') → w = word_to_id) ∧
  ("<eos>"%string ∈ data → "<pad>"%string ∈ data →
   ∃ eos pad : Z,
     build_vocab data g = (Ok word_to_id, globals_after g eos pad) ∧
     word_to_id !! "<eos>"%string = Some eos ∧
     word_to_id !! "<pad>"%string = Some pad) ∧
  (∀ w, is_Some (word_to_id !! w) ↔ w ∈ data) ∧
  size word_to_id = size (list_to_set data : gset string) ∧
  (map_to_list word_to_id).*2 ≡ₚ range (Z.of_nat (size word_to_id)) ∧
  (∀ w1 w2 i1 i2,
     word_to_id !! w1 = Some i1 → word_to_id !! w2 = Some i2 →
     (i1 < i2)%Z ↔ ranks_before data w1 w2) ∧
  (data ≠ [] →
   ∃ w0, word_to_id !! w0 = Some 0%Z ∧
         ∀ w, w ∈ data → w ≠ w0 → ranks_before data w0 w) ∧
  (∀ data', data ≡ₚ data' → build_vocab data' g = build_vocab data g).
Proof.
  intros word_to_id. subst word_to_id.
  pose proof (vocab_words_NoDup data) as Hnd.
  pose proof (vocab_words_elem_of data) as Hwords.
  pose proof (build_vocab_run data g) as Hrun. simpl in Hrun.
  pose proof (λ w g', build_vocab_Ok_inv data g g' w) as Hinv.
  assert (∀ w1 w2 i1 i2,
    word_to_id_of (count_pairs_of data).*1 !! w1 = Some i1 →
    word_to_id_of (count_pairs_of data).*1 !! w2 = Some i2 →
    (i1 < i2)%Z ↔ ranks_before data w1 w2) as Hord.
  { intros w1 w2 i1 i2.
    rewrite !word_to_id_of_lookup by done.
    intros (n1 & H1 & ->) (n2 & H2 & ->).
    rewrite <- (vocab_words_order data n1 n2 w1 w2 H1 H2). lia. }
  assert (data ≠ [] → count_pairs_of data ≠ []) as Hne.
  { intros ? ?%count_pairs_nil. done. }
  remember (count_pairs_of data).*1 as words eqn:Ewords.
  assert (∀ w, is_Some (word_to_id_of words !! w) ↔ w ∈ data) as Hdom.
  { intros w. by rewrite word_to_id_of_is_Some. }
  split; [done|]. split; [|split; [done|split; [|split; [|split; [done|split]]]]].
  - intros Heos Hpad.
    destruct (proj2 (Hdom _) Heos) as [eos Heos'].
    destruct (proj2 (Hdom _) Hpad) as [pad Hpad'].
    exists eos, pad. split; [|done].
    rewrite Hrun, Heos', Hpad'.
    destruct data; [by apply not_elem_of_nil in Heos|done].
  - rewrite <- !size_dom. f_equal. apply set_eq. intros w.
    by rewrite elem_of_dom, Hdom, elem_of_list_to_set.
  - rewrite word_to_id_of_size by done. by apply word_to_id_of_values.
  - intros Hdata. destruct words as [|w0 ws].
    { destruct (count_pairs_of data); [by apply Hne in Hdata|done]. }
    assert (word_to_id_of (w0 :: ws) !! w0 = Some 0%Z) as H0.
    { apply word_to_id_of_lookup; [done|]. by exists 0. }
    exists w0. split; [done|]. intros w Hw Hw0.
    apply Hdom in Hw as [i Hi].
    apply (Hord w0 w 0%Z i H0 Hi).
    apply word_to_id_of_lookup in Hi as (n & Hn & ->); [|done].
    destruct n as [|n]; [|lia]. simpl in Hn. congruence.
  - intros data' Hp. rewrite !build_vocab_run.
    rewrite (count_pairs_of_perm_eq data data' Hp).
    destruct data as [|w data].
    + by apply Permutation_nil in Hp as ->.
    + destruct data' as [|w' data']; [by apply Permutation_nil_r in Hp|done].
Qed.

Lemma build_vocab_ids_witness :
  let data := ["the"; "<eos>"; "<pad>"; "cat"; "the"; "<eos>"; "<pad>"]%string in
  let word_to_id := word_to_id_of (count_pairs_of data).*1 in
  (∀ w g', build_vocab data initial_globals = (Ok w, g') → w = word_to_id) ∧
  ("<eos>"%string ∈ data → "<pad>"%string ∈ data →
   ∃ eos pad : Z,
     build_vocab data initial_globals
       = (Ok word_to_id, globals_after initial_globals eos pad) ∧
     word_to_id !! "<eos>"%string = Some eos ∧
     word_to_id !! "<pad>"%string = Some pad) ∧
  (∀ w, is_Some (word_to_id !! w) ↔ w ∈ data) ∧
  size word_to_id = size (list_to_set data : gset string) ∧
  (map_to_list word_to_id).*2 ≡ₚ range (Z.of_nat (size word_to_id)) ∧
  (∀ w1 w2 i1 i2,
     word_to_id !! w1 = Some i1 → word_to_id !! w2 = Some i2 →
     (i1 < i2)%Z ↔ ranks_before data w1 w2) ∧
  (data ≠ [] →
   ∃ w0, word_to_id !! w0 = Some 0%Z ∧
         ∀ w, w ∈ data → w ≠ w0 → ranks_before data w0 w) ∧
  (∀ data', data ≡ₚ data' →
     build_vocab data' initial_globals = build_vocab data initial_globals).
Proof.
  intros data. apply (build_vocab_ids data initial_globals).
Defined.

(** ** Encoding *)

Section EncodeFacts.
Context (word_to_id : gmap string Z).

Lemma file_to_word_ids_nil : _file_to_word_ids [] word_to_id = [].
Proof. done. Qed.

Lemma file_to_word_ids_cons (w : string) (data : list string) :
  _file_to_word_ids (w :: data) word_to_id =
  match word_to_id !! w with
  | Some i => i :: _file_to_word_ids data word_to_id
  | None => _file_to_word_ids data word_to_id
  end.
Proof.
  unfold _file_to_word_ids. rewrite filter_cons.
  destruct (word_to_id !! w) as [i|] eqn:Hw.
  - rewrite decide_True by (apply elem_of_dom; eauto).
    rewrite fmap_cons. f_equal. by rewrite lookup_total_alt, Hw.
  - rewrite decide_False; [done|]. by rewrite not_elem_of_dom.
Qed.

Lemma file_to_word_ids_omap (data : list string) :
  _file_to_word_ids data word_to_id = omap (λ w, word_to_id !! w) data.
Proof.
  induction data as [|w data IH]; [done|].
  rewrite file_to_word_ids_cons. simpl. rewrite IH.
  by destruct (word_to_id !! w).
Qed.

Lemma file_to_word_ids_length (data : list string) :
  length (_file_to_word_ids data word_to_id) =
  length (filter (λ w, is_Some (word_to_id !! w)) data).
Proof.
  induction data as [|w data IH]; [done|].
  rewrite file_to_word_ids_cons, filter_cons.
  destruct (word_to_id !! w) as [i|] eqn:Hw.
  - rewrite decide_True by done. simpl. by rewrite IH.
  - rewrite decide_False; [done|]. by intros [? ?].
Qed.

Lemma file_to_word_ids_Forall2 (data : list string) :
  Forall2 (λ w i, word_to_id !! w = Some i)
    (filter (λ w, is_Some (word_to_id !! w)) data)
    (_file_to_word_ids data word_to_id).
Proof.
  induction data as [|w data IH]; [constructor|].
  rewrite file_to_word_ids_cons, filter_cons.
  destruct (word_to_id !! w) as [i|] eqn:Hw.
  - rewrite decide_True by done. by constructor.
  - rewrite decide_False; [done|]. by intros [? ?].
Qed.

Lemma id_to_word_lookup (w : string) (i : Z) :
  (∀ w1 w2 j, word_to_id !! w1 = Some j → word_to_id !! w2 = Some j → w1 = w2) →
  word_to_id !! w = Some i → id_to_word word_to_id !! i = Some w.
Proof.
  intros Hinj Hw. unfold id_to_word.
  apply elem_of_list_to_map_1'.
  - intros w' Hin. apply list_elem_of_fmap in Hin as ([w2 j] & Heq & Hin).
    simpl in Heq. injection Heq as -> ->.
    apply elem_of_map_to_list in Hin. by eapply Hinj.
  - apply list_elem_of_fmap. exists (w, i). split; [done|].
    by apply elem_of_map_to_list.
Qed.

End EncodeFacts.

Lemma build_vocab_inj (data : list string) (g g' : globals)
    (word_to_id : gmap string Z) (w1 w2 : string) (i : Z) :
  build_vocab data g = (Ok word_to_id, g') →
  word_to_id !! w1 = Some i → word_to_id !! w2 = Some i → w1 = w2.
Proof.
  intros ->%build_vocab_Ok_inv.
  rewrite !word_to_id_of_lookup by apply vocab_words_NoDup.
  intros (n1 & H1 & ->) (n2 & H2 & Heq).
  apply Nat2Z.inj in Heq as ->. congruence.
Qed.

(** C7. [_file_to_word_ids] maps the words found in the vocabulary to their
    ids, in order, and drops the others, without raising: whenever some word
    [w] of [data] is not in the vocabulary, the output is strictly shorter
    than [data], and every id in it is the id of another word, one that is in
    the vocabulary. *)
Theorem file_to_word_ids_drops_oov (data : list string)
    (word_to_id : gmap string Z) :
  Forall2 (λ w' i, word_to_id !! w' = Some i)
    (filter (λ w', is_Some (word_to_id !! w')) data)
    (_file_to_word_ids data word_to_id) ∧
  ∀ w, w ∈ data → word_to_id !! w = None →
    length (_file_to_word_ids data word_to_id) < length data ∧
    (∀ i, i ∈ _file_to_word_ids data word_to_id →
          ∃ w', w' ∈ data ∧ w' ≠ w ∧ word_to_id !! w' = Some i).
Proof.
  split; [apply file_to_word_ids_Forall2|]. intros w Hin Hw. split.
  - rewrite file_to_word_ids_length.
    apply (length_filter_lt _ _ w); [done|]. rewrite Hw. by intros [? ?].
  - intros i. rewrite file_to_word_ids_omap, list_elem_of_omap.
    intros (w' & Hw' & Hi). exists w'. split; [done|]. split; [|done].
    intros ->. congruence.
Qed.

Lemma file_to_word_ids_drops_oov_witness :
  let word_to_id : gmap string Z := <["a"%string := 0%Z]> (<["b"%string := 1%Z]> ∅) in
  let data := ["b"; "zzz"; "a"; "b"]%string in
  _file_to_word_ids data word_to_id = [1; 0; 1]%Z ∧
  length (_file_to_word_ids data word_to_id) < length data ∧
  (∀ i, i ∈ _file_to_word_ids data word_to_id →
        ∃ w', w' ∈ data ∧ w' ≠ "zzz"%string ∧ word_to_id !! w' = Some i).
Proof.
  intros word_to_id data. split; [by vm_compute|].
  apply (proj2 (file_to_word_ids_drops_oov data word_to_id) "zzz"%string).
  - apply (bool_decide_unpack _). vm_compute. exact I.
  - vm_compute. reflexivity.
Defined.

(** C8. For a vocabulary returned by [build_vocab] and words that are all in
    it, looking the ids of [_file_to_word_ids] up in the inverse mapping gives
    the words back, one for one. *)
Theorem encode_decode_roundtrip (vocab_data data : list string)
    (g g' : globals) (word_to_id : gmap string Z) :
  build_vocab vocab_data g = (Ok word_to_id, g') →
  Forall (λ w, is_Some (word_to_id !! w)) data →
  (λ i, id_to_word word_to_id !! i) <$> _file_to_word_ids data word_to_id
  = Some <$> data.
Proof.
  intros Hrun Hall.
  induction Hall as [|w data [i Hw] Hall IH]; [done|].
  rewrite file_to_word_ids_cons, Hw, !fmap_cons, IH. f_equal.
  apply id_to_word_lookup; [|done].
  intros w1 w2 j. by eapply build_vocab_inj.
Qed.

Lemma encode_decode_roundtrip_witness :
  let vocab_data := ["the"; "<eos>"; "<pad>"; "cat"; "the"; "<eos>"; "<pad>"]%string in
  let word_to_id := word_to_id_of (count_pairs_of vocab_data).*1 in
  let data := ["cat"; "the"; "<eos>"; "cat"]%string in
  (λ i, id_to_word word_to_id !! i) <$> _file_to_word_ids data word_to_id
  = Some <$> data.
Proof.
  intros vocab_data word_to_id data.
  apply (encode_decode_roundtrip vocab_data data initial_globals
           (globals_after initial_globals 0 1) word_to_id).
  - vm_compute. reflexivity.
  - apply (bool_decide_unpack _). vm_compute. exact I.
Defined.

(** C9, as the code has it. On an empty list of words [build_vocab] raises
    the [ValueError] of line 45, before any marker is looked up; it returns no
    mapping and leaves the marker ids and the output as they were. *)
Theorem build_vocab_empty (g : globals) :
  build_vocab [] g = (Raise ValueError, g).
Proof. by rewrite build_vocab_run. Qed.

(** C9, as stated, fails: the error of the empty corpus is not the error of
    a missing marker, which is the [KeyError] of the lookups of lines 47-48. *)
Lemma build_vocab_empty_not_missing_marker :
  ¬ ∃ (marker : string) (g' : globals),
      build_vocab [] initial_globals = (Raise (KeyError marker), g').
Proof. intros (marker & g' & H). rewrite build_vocab_run in H. discriminate H. Qed.

(** The error of a missing marker, for comparison: words that do not hold
    ["<eos>"] end in the [KeyError] of line 47, with the state untouched. *)
Lemma build_vocab_missing_eos (data : list string) (g : globals) :
  data ≠ [] → "<eos>"%string ∉ data →
  build_vocab data g = (Raise (KeyError "<eos>"), g).
Proof.
  intros Hne Hnin. rewrite build_vocab_run.
  destruct data as [|w data]; [done|].
  destruct (_ !! "<eos>"%string) as [i|] eqn:Hi; [|done].
  exfalso. apply Hnin.
  apply vocab_words_elem_of, word_to_id_of_is_Some; [apply vocab_words_NoDup|eauto].
Qed.

(** ** Slices *)

Section SliceFacts.
Context {A : Type}.
Implicit Types l : list A.

Lemma slice_nonneg (a b : Z) l :
  (0 ≤ a)%Z → (0 ≤ b)%Z →
  slice a b l = take (Z.to_nat b - Z.to_nat a) (drop (Z.to_nat a) l).
Proof.
  intros Ha Hb. unfold slice, slice_index, len.
  rewrite (proj2 (Z.ltb_ge a 0)), (proj2 (Z.ltb_ge b 0)) by done.
  apply list_eq. intros i. rewrite !lookup_take, !lookup_drop.
  destruct (decide (Z.to_nat a + i < length l)) as [Hlt|Hge].
  - replace (Z.to_nat (Z.min a (Z.of_nat (length l)))) with (Z.to_nat a) by lia.
    repeat case_decide; try done; lia.
  - rewrite (lookup_ge_None_2 l (Z.to_nat (Z.min a (Z.of_nat (length l))) + i)) by lia.
    rewrite (lookup_ge_None_2 l (Z.to_nat a + i)) by lia.
    by repeat case_decide.
Qed.

Lemma slice_to_nonneg (b : Z) l :
  (0 ≤ b)%Z → slice_to b l = take (Z.to_nat b) l.
Proof.
  intros Hb. unfold slice_to. rewrite slice_nonneg by done.
  by rewrite Nat.sub_0_r.
Qed.

Lemma slice_from_nonneg (a : Z) l :
  (0 ≤ a)%Z → slice_from a l = drop (Z.to_nat a) l.
Proof.
  intros Ha. unfold slice_from. rewrite slice_nonneg by (done || unfold len; lia).
  apply take_ge. rewrite length_drop. unfold len. lia.
Qed.

(** [l[:-1]]: all but the last entry. *)
Lemma slice_to_minus_one l : slice_to (-1) l = take (length l - 1) l.
Proof.
  unfold slice_to, slice, slice_index, len. simpl.
  rewrite Z.min_l, Z.sub_0_r by lia. simpl. f_equal. lia.
Qed.

Lemma slice_middle (l1 l2 l3 : list A) :
  slice (len l1) (len (l1 ++ l2)) (l1 ++ l2 ++ l3) = l2.
Proof.
  rewrite slice_nonneg by (unfold len; lia). unfold len.
  rewrite !Nat2Z.id, length_app, drop_app_length.
  replace (length l1 + length l2 - length l1) with (length l2) by lia.
  by rewrite take_app_length.
Qed.

End SliceFacts.

(** ** Sentences *)

Section SentenceFacts.

Lemma len_app {A : Type} (l1 l2 : list A) : len (l1 ++ l2) = (len l1 + len l2)%Z.
Proof. unfold len. rewrite length_app. lia. Qed.

Lemma np_split_cut_after (v : Z) (l before cur : list Z) :
  np_split_from (len before) (before ++ cur ++ l)
    ((λ i, (i + 1)%Z) <$> np_where_eq_from (len (before ++ cur)) l v)
  = cut_after v cur l.
Proof.
  revert before cur. induction l as [|x l IH]; intros before cur.
  - simpl. f_equal.
    pose proof (slice_middle before cur []) as Hs.
    by rewrite !app_nil_r in *.
  - assert (len (before ++ cur) + 1 = len (before ++ cur ++ [x]))%Z as Hlen.
    { rewrite !len_app. unfold len. simpl. lia. }
    assert (before ++ cur ++ x :: l = before ++ (cur ++ [x]) ++ l) as Hcons.
    { by rewrite <- (app_assoc cur). }
    cbn [np_where_eq_from cut_after].
    destruct (x =? v)%Z.
    + rewrite fmap_cons. cbn [np_split_from]. f_equal.
      * rewrite Hlen, Hcons. apply slice_middle.
      * rewrite Hlen. specialize (IH (before ++ cur ++ [x]) []).
        rewrite app_nil_r in IH. rewrite <- IH. f_equal.
        simpl. by rewrite <- !app_assoc.
    + rewrite Hlen, Hcons. apply IH.
Qed.

(** Line 109 cuts the stream after every end-of-sequence id. *)
Lemma sentences_of_cut_after (raw_data : list Z) (g : globals) :
  sentences_of raw_data g = cut_after (EOS_INDEX g) [] (np_array_int32 raw_data).
Proof.
  unfold sentences_of, split_sentences, np_split, np_where_eq.
  apply (np_split_cut_after (EOS_INDEX g) (np_array_int32 raw_data) [] []).
Qed.

Lemma cut_after_concat (eos : Z) (cur l : list Z) :
  concat (cut_after eos cur l) = cur ++ l.
Proof.
  revert cur. induction l as [|x l IH]; intros cur; simpl.
  - by rewrite app_nil_r.
  - destruct (x =? eos)%Z; simpl; rewrite IH; by rewrite <- ?app_assoc.
Qed.

Lemma cut_after_length (eos : Z) (cur l : list Z) :
  1 ≤ length (cut_after eos cur l).
Proof.
  revert cur. induction l as [|x l IH]; intros cur; simpl; [lia|].
  destruct (x =? eos)%Z; simpl; [lia|apply IH].
Qed.

Lemma sentences_of_length (raw_data : list Z) (g : globals) :
  1 ≤ length (sentences_of raw_data g).
Proof. rewrite sentences_of_cut_after. apply cut_after_length. Qed.

End SentenceFacts.

(** ** The padded sentence matrix *)

Section MatrixFacts.

Lemma assign_prefix_blank (L pad : Z) (s : list Z) :
  (0 ≤ L + 1)%Z →
  assign_prefix (slice_to (L + 1) s) (replicate (Z.to_nat (L + 1)) pad)
  = pad_row (Z.to_nat (L + 1)) pad s.
Proof.
  intros HL. unfold assign_prefix, pad_row.
  rewrite slice_to_nonneg by done. by rewrite drop_replicate.
Qed.

Lemma fill_rows_prefix (sentences : list (list Z)) (L pad : Z) (k : nat) :
  (0 ≤ L + 1)%Z → k ≤ length sentences →
  fold_left (fill_row sentences L) (Z.of_nat <$> seq 0 k)
    (replicate (length sentences) (replicate (Z.to_nat (L + 1)) pad))
  = (pad_row (Z.to_nat (L + 1)) pad <$> take k sentences)
    ++ replicate (length sentences - k) (replicate (Z.to_nat (L + 1)) pad).
Proof.
  intros HL. induction k as [|k IH]; intros Hk.
  { simpl. by rewrite Nat.sub_0_r. }
  rewrite seq_S, fmap_app, fold_left_app, IH by lia. simpl.
  destruct (lookup_lt_is_Some_2 sentences k) as [s Hs]; [lia|].
  assert (length (pad_row (Z.to_nat (L + 1)) pad <$> take k sentences) = k) as Hlen.
  { rewrite length_fmap, length_take. lia. }
  replace (length sentences - k) with (S (length sentences - S k)) by lia.
  unfold fill_row. rewrite Nat2Z.id, Hs.
  rewrite lookup_app_r, Hlen, Nat.sub_diag by lia. simpl.
  rewrite insert_app_r_alt, Hlen, Nat.sub_diag by lia. simpl.
  rewrite (take_S_r _ _ _ Hs), fmap_app, <- app_assoc. simpl.
  by rewrite assign_prefix_blank.
Qed.

(** The loop of lines 114-116 writes row [i] from sentence [i]. *)
Lemma padded_matrix_pad_row (sentences : list (list Z)) (L : Z) (g : globals) :
  (0 ≤ L + 1)%Z →
  padded_matrix sentences L g
  = pad_row (Z.to_nat (L + 1)) (int32 (PAD_INDEX g)) <$> sentences.
Proof.
  intros HL. unfold padded_matrix, fill_rows, np_full.
  rewrite range_len. unfold len. rewrite Nat2Z.id.
  rewrite fill_rows_prefix by (done || lia).
  by rewrite firstn_all, Nat.sub_diag, app_nil_r.
Qed.

Lemma pad_row_length (width : nat) (pad : Z) (s : list Z) :
  length (pad_row width pad s) = width.
Proof.
  unfold pad_row. rewrite length_app, length_replicate, length_take. lia.
Qed.

End MatrixFacts.

(** C4. The padded matrix has one row per sentence and [sequence_length + 1]
    columns; row [i] starts with the first [min (len sentence_i)
    (sequence_length + 1)] ids of sentence [i], in order, and every entry
    after them is the pad id (as an [int32]). *)
Theorem padded_matrix_rows (raw_data : list Z) (sequence_length : Z) (g : globals) :
  (1 ≤ sequence_length)%Z →
  let sentences := sentences_of raw_data g in
  let data := padded_matrix sentences sequence_length g in
  len data = len sentences ∧
  Forall (λ row, len row = (sequence_length + 1)%Z) data ∧
  ∀ (i : nat) (s : list Z), sentences !! i = Some s →
    ∃ row k,
      data !! i = Some row ∧
      Z.of_nat k = Z.min (len s) (sequence_length + 1) ∧
      take k row = take k s ∧
      drop k row = replicate (Z.to_nat (sequence_length + 1) - k) (int32 (PAD_INDEX g)).
Proof.
  intros HL sentences data. unfold data.
  rewrite padded_matrix_pad_row by lia.
  split; [unfold len; by rewrite length_fmap|]. split.
  - apply Forall_fmap, Forall_forall. intros s _. simpl.
    unfold len. rewrite pad_row_length. lia.
  - intros i s Hs.
    exists (pad_row (Z.to_nat (sequence_length + 1)) (int32 (PAD_INDEX g)) s).
    exists (length (take (Z.to_nat (sequence_length + 1)) s)).
    split; [by rewrite list_lookup_fmap, Hs|]. split.
    { rewrite length_take. unfold len. lia. }
    unfold pad_row. split.
    + rewrite take_app_length, length_take.
      destruct (decide (Z.to_nat (sequence_length + 1) ≤ length s)).
      * by rewrite Nat.min_l by lia.
      * rewrite Nat.min_r by lia. by rewrite !take_ge by lia.
    + by rewrite drop_app_length.
Qed.

Lemma padded_matrix_rows_witness :
  let raw_data := [1; 2; 0; 3; 0]%Z in
  let sentences := sentences_of raw_data initial_globals in
  let data := padded_matrix sentences 2 initial_globals in
  len data = len sentences ∧
  Forall (λ row, len row = (2 + 1)%Z) data ∧
  ∀ (i : nat) (s : list Z), sentences !! i = Some s →
    ∃ row k,
      data !! i = Some row ∧
      Z.of_nat k = Z.min (len s) (2 + 1) ∧
      take k row = take k s ∧
      drop k row = replicate (Z.to_nat (2 + 1) - k) (int32 (PAD_INDEX initial_globals)).
Proof.
  intros raw_data. apply (padded_matrix_rows raw_data 2 initial_globals). lia.
Defined.

(** C10, as the code has it. The row of a sentence of length exactly
    [sequence_length + 1] is the sentence itself: nothing is filled in, and
    the row holds the pad id exactly where the sentence does. *)
Theorem full_sentence_row (raw_data : list Z) (sequence_length : Z) (g : globals)
    (i : nat) (s : list Z) :
  (1 ≤ sequence_length)%Z →
  sentences_of raw_data g !! i = Some s →
  len s = (sequence_length + 1)%Z →
  padded_matrix (sentences_of raw_data g) sequence_length g !! i = Some s ∧
  (int32 (PAD_INDEX g) ∉ s →
   ∀ row, padded_matrix (sentences_of raw_data g) sequence_length g !! i = Some row →
          int32 (PAD_INDEX g) ∉ row).
Proof.
  intros HL Hs Hlen.
  assert (padded_matrix (sentences_of raw_data g) sequence_length g !! i = Some s) as Hrow.
  { rewrite padded_matrix_pad_row by lia. rewrite list_lookup_fmap, Hs. simpl.
    f_equal. unfold pad_row, len in *.
    rewrite take_ge by lia.
    replace (Z.to_nat (sequence_length + 1) - length s) with 0 by lia.
    apply app_nil_r. }
  split; [done|]. intros Hnin row Hrow'. congruence.
Qed.

Lemma full_sentence_row_witness :
  padded_matrix (sentences_of [1; 2; 0; 3; 0]%Z initial_globals) 2 initial_globals !! 0
    = Some [1; 2; 0]%Z ∧
  (int32 (PAD_INDEX initial_globals) ∉ [1; 2; 0]%Z →
   ∀ row, padded_matrix (sentences_of [1; 2; 0; 3; 0]%Z initial_globals) 2
            initial_globals !! 0 = Some row →
          int32 (PAD_INDEX initial_globals) ∉ row).
Proof.
  apply (full_sentence_row [1; 2; 0; 3; 0]%Z 2 initial_globals 0 [1; 2; 0]%Z).
  - lia.
  - vm_compute. reflexivity.
  - vm_compute. reflexivity.
Defined.

(** ** Batches *)

Section BatchFacts.

Lemma fmap_const_replicate {A B : Type} (f : A → B) (c : B) (l : list A) :
  Forall (λ a, f a = c) l → f <$> l = replicate (length l) c.
Proof.
  induction 1 as [|a l Ha _ IH]; [done|].
  rewrite fmap_cons, Ha, IH. done.
Qed.

Lemma make_batch_block (data : list (list Z)) (batch_size : Z) (i : nat) :
  (1 ≤ batch_size)%Z →
  make_batch data batch_size (Z.of_nat i) =
    (slice_to (-1) <$> row_block data batch_size i,
     slice_from 1 <$> row_block data batch_size i,
     np_ones_like (slice_to (-1) <$> row_block data batch_size i)).
Proof.
  intros Hbs. unfold make_batch, slice2, row_block.
  rewrite slice_nonneg by nia.
  replace (Z.to_nat ((Z.of_nat i + 1) * batch_size) - Z.to_nat (Z.of_nat i * batch_size))
    with (Z.to_nat batch_size) by nia.
  replace (Z.to_nat (Z.of_nat i * batch_size)) with (i * Z.to_nat batch_size) by nia.
  done.
Qed.

Lemma row_block_length (data : list (list Z)) (batch_size : Z) (i : nat) :
  (1 ≤ batch_size)%Z → (Z.of_nat i < len data / batch_size)%Z →
  length (row_block data batch_size i) = Z.to_nat batch_size.
Proof.
  intros Hbs Hi. unfold row_block, len in *.
  rewrite length_take, length_drop.
  pose proof (Z.mul_div_le (Z.of_nat (length data)) batch_size ltac:(lia)).
  assert ((Z.of_nat i + 1) * batch_size ≤ Z.of_nat (length data))%Z by nia.
  nia.
Qed.

Lemma row_block_Forall (P : list Z → Prop) (data : list (list Z))
    (batch_size : Z) (i : nat) :
  Forall P data → Forall P (row_block data batch_size i).
Proof. intros H. by apply Forall_take, Forall_drop. Qed.

(** First [k] blocks, one after the other, are the first [k * batch_size]
    rows. *)
Lemma row_block_concat (data : list (list Z)) (batch_size : Z) (k : nat) :
  concat (row_block data batch_size <$> seq 0 k) = take (k * Z.to_nat batch_size) data.
Proof.
  induction k as [|k IH]; [done|].
  rewrite seq_S, fmap_app, concat_app, IH. simpl. rewrite app_nil_r.
  unfold row_block. rewrite take_take_drop. f_equal. lia.
Qed.

Lemma row_slice_to (r : list Z) (L : Z) :
  (0 ≤ L)%Z → len r = (L + 1)%Z → slice_to (-1) r = take (Z.to_nat L) r.
Proof.
  intros HL Hr. rewrite slice_to_minus_one. f_equal. unfold len in Hr. lia.
Qed.

Lemma row_slice_from (r : list Z) : slice_from 1 r = drop 1 r.
Proof. by rewrite slice_from_nonneg. Qed.

Lemma fits_c_long_int32 (z : Z) :
  (- 2 ^ 31 ≤ z < 2 ^ 31)%Z → fits_c_long z = true.
Proof.
  intros Hz. unfold fits_c_long. apply andb_true_iff.
  split; [apply Z.leb_le|apply Z.ltb_lt]; lia.
Qed.

(** Line 107 returns the array for ids inside the 32-bit range. *)
Lemma np_array_result_int32 (raw_data : list Z) :
  Forall (λ z, (- 2 ^ 31 ≤ z < 2 ^ 31)%Z) raw_data →
  np_array_result raw_data = inr (np_array_int32 raw_data).
Proof.
  intros Hall. unfold np_array_result.
  assert (forallb fits_c_long raw_data = true) as ->; [|done].
  induction Hall as [|z l Hz _ IH]; [done|].
  cbn [forallb]. by rewrite fits_c_long_int32, IH.
Qed.

(** Line 113 returns the matrix when its size fits and the fill value is
    inside the 32-bit range. *)
Lemma np_full_result_int32 (rows cols v : Z) :
  (0 ≤ rows)%Z → (0 ≤ cols)%Z → (rows * cols * 4 < 2 ^ 63)%Z →
  (- 2 ^ 31 ≤ v < 2 ^ 31)%Z →
  np_full_result rows cols v = inr (np_full rows cols v).
Proof.
  intros Hr Hc Hsize Hv. unfold np_full_result.
  rewrite (proj2 (Z.ltb_ge rows 0)), (proj2 (Z.ltb_ge cols 0)) by done.
  rewrite (proj2 (Z.leb_gt _ _)) by done.
  by rewrite fits_c_long_int32.
Qed.

(** [ptb_iterator] when nothing raises. *)
Lemma ptb_iterator_run (raw_data : list Z) (batch_size sequence_length : Z)
    (epoch_size_override : pyval) (g : globals) :
  Forall (λ z, (- 2 ^ 31 ≤ z < 2 ^ 31)%Z) raw_data →
  (- 2 ^ 31 ≤ PAD_INDEX g < 2 ^ 31)%Z →
  (len (sentences_of raw_data g) * (sequence_length + 1) * 4 < 2 ^ 63)%Z →
  (0 ≤ sequence_length + 1)%Z → truthy epoch_size_override = false →
  batch_size ≠ 0%Z →
  ptb_iterator raw_data batch_size sequence_length epoch_size_override g =
    (make_batch
       (padded_matrix (sentences_of raw_data g) sequence_length g) batch_size
     <$> range (len (sentences_of raw_data g) / batch_size), None).
Proof.
  intros Hids Hpad Hsize HL Hov Hbs. unfold ptb_iterator.
  rewrite np_array_result_int32 by done.
  change (split_sentences (np_array_int32 raw_data) g)
    with (sentences_of raw_data g).
  rewrite np_full_result_int32 by (done || unfold len; lia).
  rewrite Hov, (proj2 (Z.eqb_neq _ _) Hbs). done.
Qed.

(** A batch is only yielded by a run in which nothing raises. *)
Lemma ptb_iterator_yields (raw_data : list Z) (batch_size sequence_length : Z)
    (epoch_size_override : pyval) (g : globals) :
  (ptb_iterator raw_data batch_size sequence_length epoch_size_override g).1 ≠ [] →
  (0 ≤ sequence_length + 1)%Z ∧ batch_size ≠ 0%Z ∧
  ptb_iterator raw_data batch_size sequence_length epoch_size_override g =
    (make_batch
       (padded_matrix (sentences_of raw_data g) sequence_length g) batch_size
     <$> range (len (sentences_of raw_data g) / batch_size), None).
Proof.
  unfold ptb_iterator, np_array_result, np_full_result.
  destruct (forallb fits_c_long raw_data); [|done].
  change (split_sentences (np_array_int32 raw_data) g)
    with (sentences_of raw_data g).
  destruct (len (sentences_of raw_data g) <? 0)%Z; [done|].
  destruct (Z.ltb_spec (sequence_length + 1) 0); [done|]. cbn [orb].
  destruct (2 ^ 63 <=? _)%Z; [done|].
  destruct (fits_c_long (PAD_INDEX g)); [|done].
  destruct (truthy epoch_size_override); [done|].
  destruct (Z.eqb_spec batch_size 0); [done|]. done.
Qed.

(** Whenever the iteration ends with an exception, no batch was yielded. *)
Lemma ptb_iterator_raise_no_batch (raw_data : list Z)
    (batch_size sequence_length : Z) (epoch_size_override : pyval) (g : globals) :
  (ptb_iterator raw_data batch_size sequence_length epoch_size_override g).2 ≠ None →
  (ptb_iterator raw_data batch_size sequence_length epoch_size_override g).1 = [].
Proof.
  unfold ptb_iterator.
  destruct (np_array_result raw_data) as [e|a]; [done|].
  destruct (np_full_result _ _ _) as [e|m]; [done|].
  destruct (truthy epoch_size_override); [done|].
  by destruct (batch_size =? 0)%Z.
Qed.

Lemma padded_matrix_len (sentences : list (list Z)) (L : Z) (g : globals) :
  (0 ≤ L + 1)%Z → len (padded_matrix sentences L g) = len sentences.
Proof.
  intros HL. rewrite padded_matrix_pad_row by done. unfold len.
  by rewrite length_fmap.
Qed.

Lemma padded_matrix_row_len (sentences : list (list Z)) (L : Z) (g : globals) :
  (0 ≤ L + 1)%Z →
  Forall (λ row, len row = (L + 1)%Z) (padded_matrix sentences L g).
Proof.
  intros HL. rewrite padded_matrix_pad_row by done.
  apply Forall_fmap, Forall_forall. intros s _. simpl.
  unfold len. rewrite pad_row_length. lia.
Qed.

End BatchFacts.

Section IteratorFacts.
Context (raw_data : list Z) (batch_size sequence_length : Z) (g : globals).
Hypothesis Hbs : (1 ≤ batch_size)%Z.
Hypothesis HL : (0 ≤ sequence_length)%Z.

Let sentences := sentences_of raw_data g.
Let data := padded_matrix sentences sequence_length g.
Let epoch_size := (len sentences / batch_size)%Z.

Lemma make_batch_rows (i : nat) :
  (Z.of_nat i < epoch_size)%Z →
  make_batch data batch_size (Z.of_nat i) =
    (take (Z.to_nat sequence_length) <$> row_block data batch_size i,
     drop 1 <$> row_block data batch_size i,
     replicate (Z.to_nat batch_size) (replicate (Z.to_nat sequence_length) 1%Z)).
Proof using Hbs HL.
  intros Hi. rewrite make_batch_block by done.
  assert (Forall (λ row, len row = (sequence_length + 1)%Z)
            (row_block data batch_size i)) as Hrows.
  { apply row_block_Forall, padded_matrix_row_len. lia. }
  assert (slice_to (-1) <$> row_block data batch_size i
          = take (Z.to_nat sequence_length) <$> row_block data batch_size i) as ->.
  { apply Forall_fmap_ext. eapply Forall_impl; [exact Hrows|].
    intros r Hr. simpl. by apply row_slice_to. }
  f_equal; [f_equal|].
  - apply list_fmap_ext. intros _ r _. apply row_slice_from.
  - unfold np_ones_like. rewrite <- list_fmap_compose.
    rewrite (fmap_const_replicate _ (replicate (Z.to_nat sequence_length) 1%Z)).
    + f_equal. apply row_block_length; [done|].
      unfold data. rewrite padded_matrix_len by lia. done.
    + eapply Forall_impl; [exact Hrows|]. intros r Hr. simpl.
      rewrite (fmap_const_replicate _ 1%Z) by (by apply Forall_true).
      f_equal. rewrite length_take. unfold len in Hr. lia.
Qed.

Lemma batches_length :
  len (make_batch data batch_size <$> range epoch_size) = epoch_size.
Proof using Hbs.
  unfold len, range. rewrite !length_fmap, length_seq.
  apply Z2Nat.id. apply Z.div_pos; unfold len; lia.
Qed.

Lemma batches_lookup (i : nat) :
  (Z.of_nat i < epoch_size)%Z →
  (make_batch data batch_size <$> range epoch_size) !! i
  = Some (make_batch data batch_size (Z.of_nat i)).
Proof using Hbs.
  intros Hi. unfold range. rewrite !list_lookup_fmap.
  rewrite (proj2 (lookup_seq 0 _ i i)); [done|].
  split; [done|]. lia.
Qed.

End IteratorFacts.

(** C2. In every batch [(x, y, w)] that [ptb_iterator] yields, for
    [batch_size >= 1] and [sequence_length >= 1], [x] and [y] have
    [batch_size] rows of [sequence_length] entries, column [t] of [y] is
    column [t + 1] of [x] wherever [x] has that column, and [w] is the
    all-ones matrix of the shape of [x]. *)
Theorem batch_shift_and_weight (raw_data : list Z) (batch_size sequence_length : Z)
    (epoch_size_override : pyval) (g : globals) (x y w : list (list Z)) :
  (1 ≤ batch_size)%Z → (1 ≤ sequence_length)%Z →
  (x, y, w) ∈ (ptb_iterator raw_data batch_size sequence_length
                 epoch_size_override g).1 →
  len x = batch_size ∧ Forall (λ r, len r = sequence_length) x ∧
  len y = batch_size ∧ Forall (λ r, len r = sequence_length) y ∧
  (∀ t : nat, (Z.of_nat t + 1 < sequence_length)%Z →
     (λ r : list Z, r !! t) <$> y = (λ r : list Z, r !! S t) <$> x ∧
     Forall (λ r : list Z, is_Some (r !! S t)) x) ∧
  w = replicate (length x) (replicate (Z.to_nat sequence_length) 1%Z).
Proof.
  intros Hbs HL Hin.
  destruct (ptb_iterator_yields raw_data batch_size sequence_length
              epoch_size_override g) as (_ & _ & Hrun).
  { intros Hnil. rewrite Hnil in Hin. by apply not_elem_of_nil in Hin. }
  rewrite Hrun in Hin. cbn [fst] in Hin.
  apply list_elem_of_lookup in Hin as [i Hi].
  assert (Z.of_nat i < len (sentences_of raw_data g) / batch_size)%Z as Hlt.
  { apply lookup_lt_Some in Hi.
    rewrite <- (batches_length raw_data batch_size sequence_length g
                  ltac:(lia)).
    unfold len. apply Nat2Z.inj_lt. exact Hi. }
  rewrite batches_lookup in Hi by (done || lia).
  rewrite make_batch_rows in Hi by (done || lia).
  injection Hi as <- <- <-.
  set (block := row_block _ batch_size i).
  assert (length block = Z.to_nat batch_size) as Hblock.
  { apply row_block_length; [done|]. by rewrite padded_matrix_len by lia. }
  assert (Forall (λ row, len row = (sequence_length + 1)%Z) block) as Hrows.
  { apply row_block_Forall, padded_matrix_row_len. lia. }
  unfold len in *. rewrite !length_fmap, Hblock.
  split; [lia|]. split; [|split; [lia|split; [|split; [|done]]]].
  - apply Forall_fmap. eapply Forall_impl; [exact Hrows|].
    intros r Hr. unfold compose. simpl in *. rewrite length_take. lia.
  - apply Forall_fmap. eapply Forall_impl; [exact Hrows|].
    intros r Hr. unfold compose. simpl in *. rewrite length_drop. lia.
  - intros t Ht. rewrite <- !list_fmap_compose. split.
    + apply Forall_fmap_ext. eapply Forall_impl; [exact Hrows|].
      intros r Hr. unfold compose. simpl in *. rewrite lookup_drop, lookup_take.
      by rewrite decide_True by lia.
    + apply Forall_fmap. eapply Forall_impl; [exact Hrows|].
      intros r Hr. unfold compose. simpl in *. rewrite lookup_take, decide_True by lia.
      apply lookup_lt_is_Some_2. lia.
Qed.

Lemma batch_shift_and_weight_witness :
  let x := [[1; 2]]%Z in
  let y := [[2; 0]]%Z in
  let w := [[1; 1]]%Z in
  len x = 1%Z ∧ Forall (λ r, len r = 2%Z) x ∧
  len y = 1%Z ∧ Forall (λ r, len r = 2%Z) y ∧
  (∀ t : nat, (Z.of_nat t + 1 < 2)%Z →
     (λ r : list Z, r !! t) <$> y = (λ r : list Z, r !! S t) <$> x ∧
     Forall (λ r : list Z, is_Some (r !! S t)) x) ∧
  w = replicate (length x) (replicate (Z.to_nat 2) 1%Z).
Proof.
  intros x y w.
  apply (batch_shift_and_weight [1; 2; 0; 3; 0]%Z 1 2 PyNone initial_globals x y w).
  - lia.
  - lia.
  - apply (bool_decide_unpack _). vm_compute. exact I.
Defined.

(** C3. For a stream of ids inside the 32-bit range of the array, a pad id
    inside that range and a matrix whose size fits, without an override and
    for [batch_size >= 1] and [sequence_length >= 1], [ptb_iterator] ends
    without an exception after yielding [num_sentences // batch_size]
    batches; batch [i] is made of rows [i * batch_size, (i + 1) * batch_size)
    of the padded matrix, all of them present; the batches together cover the
    first [epoch_size * batch_size] rows in order, so the rows after them are
    in no batch; and fewer sentences than [batch_size] give no batch. *)
Theorem ptb_iterator_epoch (raw_data : list Z) (batch_size sequence_length : Z)
    (epoch_size_override : pyval) (g : globals) :
  (1 ≤ batch_size)%Z → (1 ≤ sequence_length)%Z →
  truthy epoch_size_override = false →
  Forall (λ z, (- 2 ^ 31 ≤ z < 2 ^ 31)%Z) raw_data →
  (- 2 ^ 31 ≤ PAD_INDEX g < 2 ^ 31)%Z →
  (len (sentences_of raw_data g) * (sequence_length + 1) * 4 < 2 ^ 63)%Z →
  let sentences := sentences_of raw_data g in
  let data := padded_matrix sentences sequence_length g in
  let epoch_size := (len sentences / batch_size)%Z in
  ∃ batches : list batch,
    ptb_iterator raw_data batch_size sequence_length epoch_size_override g
      = (batches, None) ∧
    len batches = epoch_size ∧
    (∀ i : nat, (Z.of_nat i < epoch_size)%Z →
       len (row_block data batch_size i) = batch_size ∧
       batches !! i =
         Some (take (Z.to_nat sequence_length) <$> row_block data batch_size i,
               drop 1 <$> row_block data batch_size i,
               replicate (Z.to_nat batch_size)
                 (replicate (Z.to_nat sequence_length) 1%Z))) ∧
    concat ((λ b : batch, b.1.1) <$> batches)
      = take (Z.to_nat sequence_length)
          <$> take (Z.to_nat (epoch_size * batch_size)) data ∧
    ((len sentences < batch_size)%Z → batches = []).
Proof.
  intros Hbs HL Hov Hids Hpad Hsize sentences data epoch_size.
  pose proof (ptb_iterator_run raw_data batch_size sequence_length
                epoch_size_override g Hids Hpad Hsize ltac:(lia) Hov ltac:(lia))
    as Hrun.
  pose proof (batches_length raw_data batch_size sequence_length g Hbs) as Hlen.
  exists (make_batch data batch_size <$> range epoch_size).
  split; [exact Hrun|]. split; [exact Hlen|].
  assert (0 ≤ epoch_size)%Z as Hpos.
  { apply Z.div_pos; unfold len; lia. }
  split; [|split].
  - intros i Hi. split.
    + unfold len. rewrite row_block_length; [lia|done|].
      unfold data. by rewrite padded_matrix_len by lia.
    + pose proof (batches_lookup raw_data batch_size sequence_length g
                    Hbs i Hi) as Hi'.
      etrans; [exact Hi'|].
      unfold data, sentences. by rewrite make_batch_rows by (done || lia).
  - unfold range. rewrite <- !list_fmap_compose.
    assert (∀ k : nat, k ≤ Z.to_nat epoch_size →
      concat (((λ b : batch, b.1.1) ∘ make_batch data batch_size ∘ Z.of_nat)
                <$> seq 0 k)
      = take (Z.to_nat sequence_length) <$> take (k * Z.to_nat batch_size) data)
      as Hconcat.
    { induction k as [|k IH]; intros Hk; [done|].
      rewrite seq_S, fmap_app, concat_app, IH by lia.
      rewrite Nat.add_0_l, list_fmap_singleton. unfold compose, data, sentences.
      rewrite make_batch_rows by (done || fold sentences; fold epoch_size; lia).
      cbn [concat fst]. rewrite app_nil_r, <- fmap_app. f_equal.
      unfold row_block. rewrite take_take_drop. f_equal. lia. }
    rewrite Hconcat by lia. do 2 f_equal. nia.
  - intros Hsmall. unfold epoch_size. rewrite Z.div_small; [done|].
    unfold len in *. lia.
Qed.

Lemma ptb_iterator_epoch_witness :
  let raw_data := [1; 2; 0; 3; 0; 4; 4; 0; 5]%Z in
  let sentences := sentences_of raw_data initial_globals in
  let data := padded_matrix sentences 2 initial_globals in
  let epoch_size := (len sentences / 3)%Z in
  ∃ batches : list batch,
    ptb_iterator raw_data 3 2 PyNone initial_globals = (batches, None) ∧
    len batches = epoch_size ∧
    (∀ i : nat, (Z.of_nat i < epoch_size)%Z →
       len (row_block data 3 i) = 3%Z ∧
       batches !! i =
         Some (take (Z.to_nat 2) <$> row_block data 3 i,
               drop 1 <$> row_block data 3 i,
               replicate (Z.to_nat 3) (replicate (Z.to_nat 2) 1%Z))) ∧
    concat ((λ b : batch, b.1.1) <$> batches)
      = take (Z.to_nat 2) <$> take (Z.to_nat (epoch_size * 3)) data ∧
    ((len sentences < 3)%Z → batches = []).
Proof.
  intros raw_data.
  apply (ptb_iterator_epoch raw_data 3 2 PyNone initial_globals).
  - lia.
  - lia.
  - reflexivity.
  - apply (bool_decide_unpack _). vm_compute. exact I.
  - simpl. lia.
  - vm_compute. reflexivity.
Defined.

(** C6, as the code has it. With a truthy [epoch_size_override], a stream
    of ids inside the 32-bit range of the array and a pad id inside that
    range, no batch is yielded and the iteration ends with an exception,
    whatever [batch_size] is: [NotImplementedError] when
    [sequence_length >= -1] and the size of the matrix fits, and the
    [ValueError] of the allocation of line 113, which comes first, when
    [sequence_length < -1]. *)
Theorem override_raises (raw_data : list Z) (batch_size sequence_length : Z)
    (epoch_size_override : pyval) (g : globals) :
  truthy epoch_size_override = true →
  Forall (λ z, (- 2 ^ 31 ≤ z < 2 ^ 31)%Z) raw_data →
  (- 2 ^ 31 ≤ PAD_INDEX g < 2 ^ 31)%Z →
  (ptb_iterator raw_data batch_size sequence_length epoch_size_override g).1 = [] ∧
  ((-1 ≤ sequence_length)%Z →
   (len (sentences_of raw_data g) * (sequence_length + 1) * 4 < 2 ^ 63)%Z →
   ptb_iterator raw_data batch_size sequence_length epoch_size_override g
   = ([], Some NotImplementedError)) ∧
  ((sequence_length < -1)%Z →
   ptb_iterator raw_data batch_size sequence_length epoch_size_override g
   = ([], Some ValueError)).
Proof.
  intros Hov Hids Hpad. unfold ptb_iterator.
  rewrite np_array_result_int32 by done.
  change (split_sentences (np_array_int32 raw_data) g)
    with (sentences_of raw_data g).
  split; [|split].
  - destruct (np_full_result _ _ _); [done|]. by rewrite Hov.
  - intros HL Hsize.
    rewrite np_full_result_int32 by (done || unfold len; lia). by rewrite Hov.
  - intros HL. unfold np_full_result.
    rewrite (proj2 (Z.ltb_lt (sequence_length + 1) 0)) by lia.
    by rewrite orb_true_r.
Qed.

Lemma override_raises_witness :
  (ptb_iterator [1; 2; 0]%Z 0 3 (PyInt 5) initial_globals).1 = [] ∧
  ((-1 ≤ 3)%Z →
   (len (sentences_of [1; 2; 0]%Z initial_globals) * (3 + 1) * 4 < 2 ^ 63)%Z →
   ptb_iterator [1; 2; 0]%Z 0 3 (PyInt 5) initial_globals
   = ([], Some NotImplementedError)) ∧
  ((3 < -1)%Z →
   ptb_iterator [1; 2; 0]%Z 0 3 (PyInt 5) initial_globals = ([], Some ValueError)).
Proof.
  apply (override_raises [1; 2; 0]%Z 0 3 (PyInt 5) initial_globals).
  - reflexivity.
  - apply (bool_decide_unpack _). vm_compute. exact I.
  - simpl. lia.
Defined.

(** C6, as stated, fails for a [sequence_length] below [-1]: the allocation
    of the matrix raises before the override is looked at; and it fails for
    an id that does not fit a C [long]: the creation of the array raises
    before that. *)
Lemma override_negative_length :
  truthy (PyInt 1) = true ∧
  ptb_iterator [1; 0]%Z 1 (-2) (PyInt 1) initial_globals = ([], Some ValueError) ∧
  (ptb_iterator [1; 0]%Z 1 (-2) (PyInt 1) initial_globals).2
    ≠ Some NotImplementedError ∧
  ptb_iterator [2 ^ 64; 0; 1]%Z 1 2 (PyInt 1) initial_globals
    = ([], Some OverflowError).
Proof. split; [done|]. split; [done|]. split; by vm_compute. Qed.

(** ** The worked example *)

(** C5, as the code has it. The words of the corpus are a, b, <eos>, c,
    <eos>; the ranking of lines 42-46 gives <eos>=0, a=1, b=2, c=3, and
    [build_vocab] then raises [KeyError] for the absent pad marker, so the
    marker ids stay 0; the encoded stream is cut into three pieces, the two
    sentences and an empty piece after the last <eos>; the padded matrix has
    three rows of width 3; and the first batch has rows [0, 1) with columns
    [0, 2) as input and columns [1, 3) as target. *)
Theorem worked_example :
  let words := _read_words worked_corpus in
  let word_to_id := word_to_id_of (count_pairs_of words).*1 in
  let g := (build_vocab words initial_globals).2 in
  let raw_data := _file_to_word_ids words word_to_id in
  words = ["a"; "b"; "<eos>"; "c"; "<eos>"]%string ∧
  build_vocab words initial_globals
    = (Raise (KeyError "<pad>"),
       {| EOS_INDEX := 0; PAD_INDEX := 0; stdout := [("<eos>:"%string, 0%Z)] |}) ∧
  word_to_id !! "<eos>"%string = Some 0%Z ∧ word_to_id !! "a"%string = Some 1%Z ∧
  word_to_id !! "b"%string = Some 2%Z ∧ word_to_id !! "c"%string = Some 3%Z ∧
  size word_to_id = 4 ∧
  raw_data = [1; 2; 0; 3; 0]%Z ∧
  sentences_of raw_data g = [[1; 2; 0]; [3; 0]; []]%Z ∧
  padded_matrix (sentences_of raw_data g) 2 g
    = [[1; 2; 0]; [3; 0; 0]; [0; 0; 0]]%Z ∧
  ptb_iterator raw_data 1 2 PyNone g
    = ([([[1; 2]], [[2; 0]], [[1; 1]]);
        ([[3; 0]], [[0; 0]], [[1; 1]]);
        ([[0; 0]], [[0; 0]], [[1; 1]])]%Z, None).
Proof. vm_compute. repeat split; reflexivity. Qed.

(** C5, as stated, fails: the vocabulary of this corpus cannot be built, and
    its stream is cut into three pieces, not two. *)
Lemma worked_example_not_two_sentences :
  let words := _read_words worked_corpus in
  let word_to_id := word_to_id_of (count_pairs_of words).*1 in
  (¬ ∃ w g', build_vocab words initial_globals = (Ok w, g')) ∧
  sentences_of (_file_to_word_ids words word_to_id) initial_globals
    ≠ [[1; 2; 0]; [3; 0]]%Z ∧
  length (sentences_of (_file_to_word_ids words word_to_id) initial_globals) = 3.
Proof.
  split; [|split].
  - intros (w & g' & H). vm_compute in H. discriminate H.
  - by vm_compute.
  - by vm_compute.
Qed.

(** C10, as stated, fails: in the stream of [two_lines] the sentence of b
    starts with the pad id, has length [sequence_length + 1] for
    [sequence_length = 2], and its row holds the pad id. *)
Lemma full_sentence_row_holds_pad_id :
  let words := _read_words two_lines in
  let word_to_id := word_to_id_of (count_pairs_of words).*1 in
  let g := globals_after initial_globals 0 1 in
  let raw_data := _file_to_word_ids words word_to_id in
  build_vocab words initial_globals = (Ok word_to_id, g) ∧
  sentences_of raw_data g !! 1 = Some [1; 3; 0]%Z ∧
  len [1; 3; 0]%Z = (2 + 1)%Z ∧
  padded_matrix (sentences_of raw_data g) 2 g !! 1 = Some [1; 3; 0]%Z ∧
  int32 (PAD_INDEX g) ∈ [1; 3; 0]%Z.
Proof.
  vm_compute. repeat split; try reflexivity. left.
Qed.

(** ** Reading the words of a file *)

Section ReadWordsFacts.

Lemma append_String (c : ascii) (s t : string) :
  String c s +:+ t = String c (s +:+ t).
Proof. reflexivity. Qed.

Lemma append_empty (t : string) : EmptyString +:+ t = t.
Proof. reflexivity. Qed.

Lemma append_assoc (s t u : string) : (s +:+ t) +:+ u = s +:+ (t +:+ u).
Proof.
  induction s as [|c s IH]; [done|]. by rewrite !append_String, IH.
Qed.

Lemma string_of_list_ascii_snoc (l : list ascii) (c : ascii) (t : string) :
  string_of_list_ascii (l ++ [c]) +:+ t = string_of_list_ascii l +:+ String c t.
Proof.
  induction l as [|d l IH]; [done|].
  cbn [app string_of_list_ascii]. by rewrite !append_String, IH.
Qed.

Lemma string_of_list_ascii_last (l : list ascii) (c : ascii) :
  string_of_list_ascii (l ++ [c]) = string_of_list_ascii l +:+ String c EmptyString.
Proof.
  induction l as [|d l IH]; [done|].
  cbn [app string_of_list_ascii]. by rewrite append_String, IH.
Qed.

Lemma newline_is_space (c : ascii) : (nat_of_ascii c =? 10) = true → is_space c = true.
Proof. unfold is_space. intros ->%Nat.eqb_eq. done. Qed.

Lemma replace_newlines_app (s t : string) :
  replace_newlines (s +:+ t) = replace_newlines s +:+ replace_newlines t.
Proof.
  induction s as [|c s IH]; [done|].
  rewrite append_String. cbn [replace_newlines]. rewrite IH.
  destruct (nat_of_ascii c =? 10); [|done]. by rewrite append_assoc.
Qed.

Lemma replace_newlines_head_space (c : ascii) (s : string) :
  is_space c = true →
  ∃ d u, replace_newlines (String c s) = String d u ∧ is_space d = true.
Proof.
  intros Hc. cbn [replace_newlines].
  destruct (nat_of_ascii c =? 10).
  - eexists _, _. split; [reflexivity|]. done.
  - eexists _, _. split; [reflexivity|]. done.
Qed.

(** A space ends the run being read. *)
Lemma split_ws_app_space (cur : list ascii) (s t : string) (c : ascii) :
  is_space c = true →
  split_ws cur (s +:+ String c t) = split_ws cur s ++ split_ws [] t.
Proof.
  intros Hc. revert cur. induction s as [|d s IH]; intros cur.
  - rewrite append_empty. cbn [split_ws]. by rewrite Hc.
  - rewrite append_String. cbn [split_ws].
    destruct (is_space d); [|apply IH].
    by rewrite IH, app_assoc.
Qed.

Lemma split_ws_nonspace (cur : list ascii) (c : ascii) (s : string) :
  is_space c = false → split_ws cur (String c s) = split_ws (c :: cur) s.
Proof. intros Hc. cbn [split_ws]. by rewrite Hc. Qed.

(** A text that starts with a character other than a space starts with a
    word, and what was read before it is the start of that word. *)
Lemma split_ws_head_word (s : string) (c : ascii) :
  is_space c = false →
  ∃ tok toks, ∀ cur,
    split_ws cur (String c s) = (string_of_list_ascii (rev cur) +:+ tok) :: toks.
Proof.
  revert c. induction s as [|d s IH]; intros c Hc.
  - exists (String c EmptyString), []. intros cur.
    cbn [split_ws]. rewrite Hc. cbn [split_ws rev].
    by rewrite string_of_list_ascii_last.
  - destruct (is_space d) eqn:Hd.
    + exists (String c EmptyString), (split_ws [] s). intros cur.
      cbn [split_ws]. rewrite Hc. cbn [split_ws]. rewrite Hd. cbn [rev app].
      by rewrite string_of_list_ascii_last.
    + destruct (IH d Hd) as (tok & toks & Htok).
      exists (String c tok), toks. intros cur.
      rewrite split_ws_nonspace, Htok by done.
      cbn [rev]. by rewrite string_of_list_ascii_snoc.
Qed.

Lemma split_ws_words (s : string) (cur : list ascii) (w : string) :
  Forall (λ c, is_space c = false) cur →
  w ∈ split_ws cur s →
  w ≠ EmptyString ∧ Forall (λ c, is_space c = false) (list_ascii_of_string w).
Proof.
  revert cur. induction s as [|c s IH]; intros cur Hcur.
  - cbn [split_ws]. destruct cur as [|d cur]; [by intros ?%not_elem_of_nil|].
    intros ->%list_elem_of_singleton. split.
    + intros Heq. apply (f_equal list_ascii_of_string) in Heq.
      rewrite list_ascii_of_string_of_list_ascii in Heq.
      apply (f_equal length) in Heq. rewrite length_rev in Heq. done.
    + rewrite list_ascii_of_string_of_list_ascii. by apply Forall_rev.
  - cbn [split_ws]. destruct (is_space c) eqn:Hc.
    + rewrite elem_of_app. intros [Hw|Hw]; [|by eapply (IH []), Hw].
      destruct cur as [|d cur]; [by apply not_elem_of_nil in Hw|].
      apply list_elem_of_singleton in Hw as ->. split.
      * intros Heq. apply (f_equal list_ascii_of_string) in Heq.
        rewrite list_ascii_of_string_of_list_ascii in Heq.
        apply (f_equal length) in Heq. rewrite length_rev in Heq. done.
      * rewrite list_ascii_of_string_of_list_ascii. by apply Forall_rev.
    + apply IH. by constructor.
Qed.

End ReadWordsFacts.

Lemma read_words_newline (line rest : string) :
  _read_words (line +:+ String "010"%char rest)
  = _read_words line ++ "<eos>"%string
      :: split_ws (rev (list_ascii_of_string "<pad>")) (replace_newlines rest).
Proof.
  unfold _read_words. rewrite replace_newlines_app.
  change (replace_newlines (String "010"%char rest))
    with (String " "%char ("<eos> <pad>" +:+ replace_newlines rest)).
  by rewrite split_ws_app_space.
Qed.

(** X1. Every word [_read_words] returns, for a text of characters below
    256, is non-empty and holds none of the characters [str.split()] cuts
    at, so no newline either. *)
Theorem read_words_tokens (text w : string) :
  w ∈ _read_words text →
  w ≠ EmptyString ∧ Forall (λ c, is_space c = false) (list_ascii_of_string w).
Proof. intros Hw. by eapply split_ws_words, Hw. Qed.

Lemma read_words_tokens_witness :
  "<eos>"%string ≠ EmptyString ∧
  Forall (λ c, is_space c = false) (list_ascii_of_string "<eos>").
Proof.
  apply (read_words_tokens two_lines "<eos>").
  apply (bool_decide_unpack _). vm_compute. exact I.
Defined.

(** X2. A line followed by a newline contributes its words and then the two
    markers, when what follows the newline is empty or starts with one of the
    characters [str.split()] cuts at (a further newline is one). *)
Theorem read_words_line (line rest : string) :
  rest = EmptyString ∨ (∃ c rest', rest = String c rest' ∧ is_space c = true) →
  _read_words (line +:+ String "010"%char rest)
  = _read_words line ++ ["<eos>"; "<pad>"]%string ++ _read_words rest.
Proof.
  intros Hrest. rewrite read_words_newline. f_equal. cbn [app]. f_equal.
  destruct Hrest as [->|(c & rest' & -> & Hc)]; [done|].
  unfold _read_words.
  destruct (replace_newlines_head_space c rest' Hc) as (d & u & -> & Hd).
  cbn [split_ws]. by rewrite Hd.
Qed.

Lemma read_words_line_witness :
  _read_words ("a b" +:+ String "010"%char " c")
  = _read_words "a b" ++ ["<eos>"; "<pad>"]%string ++ _read_words " c".
Proof.
  apply (read_words_line "a b" " c").
  right. exists " "%char, "c"%string. split; reflexivity.
Defined.

(** X3. When what follows a newline starts with a character that
    [str.split()] does not cut at, the pad marker and the first word after
    the newline come out as one word. *)
Theorem read_words_glued_pad (line rest' : string) (c : ascii) :
  is_space c = false →
  ∃ tok toks,
    _read_words (String c rest') = tok :: toks ∧
    _read_words (line +:+ String "010"%char (String c rest'))
    = _read_words line ++ ["<eos>"; "<pad>" +:+ tok]%string ++ toks.
Proof.
  intros Hc.
  assert (replace_newlines (String c rest') = String c (replace_newlines rest'))
    as HR.
  { cbn [replace_newlines]. destruct (nat_of_ascii c =? 10) eqn:Hnl; [|done].
    apply newline_is_space in Hnl. congruence. }
  destruct (split_ws_head_word (replace_newlines rest') c Hc) as (tok & toks & Htok).
  exists tok, toks. split.
  - unfold _read_words. by rewrite HR, Htok.
  - by rewrite read_words_newline, HR, Htok.
Qed.

Lemma read_words_glued_pad_witness :
  ∃ tok toks,
    _read_words (String "b"%char EmptyString) = tok :: toks ∧
    _read_words ("a" +:+ String "010"%char (String "b"%char EmptyString))
    = _read_words "a" ++ ["<eos>"; "<pad>" +:+ tok]%string ++ toks.
Proof.
  apply (read_words_glued_pad "a" EmptyString "b"%char). reflexivity.
Defined.

(** ** How [build_vocab] ends *)

Section BuildVocabOutcome.

Lemma build_vocab_Ok_state (data : list string) (g g' : globals)
    (word_to_id : gmap string Z) :
  build_vocab data g = (Ok word_to_id, g') →
  ∃ eos pad,
    word_to_id !! "<eos>"%string = Some eos ∧
    word_to_id !! "<pad>"%string = Some pad ∧
    g' = globals_after g eos pad.
Proof.
  rewrite build_vocab_run. destruct data as [|w data]; [done|].
  destruct (_ !! "<eos>"%string) as [eos|] eqn:Heos; [|done].
  destruct (_ !! "<pad>"%string) as [pad|] eqn:Hpad; [|done].
  intros [= <- <-]. by exists eos, pad.
Qed.

Lemma word_to_id_of_bounds (words : list string) (w : string) (i : Z) :
  NoDup words → word_to_id_of words !! w = Some i →
  (0 ≤ i < Z.of_nat (size (word_to_id_of words)))%Z.
Proof.
  intros Hnd Hi. rewrite word_to_id_of_size by done.
  apply word_to_id_of_lookup in Hi as (n & Hn & ->); [|done].
  apply lookup_lt_Some in Hn. lia.
Qed.

Lemma build_vocab_bounds (data : list string) (g g' : globals)
    (word_to_id : gmap string Z) (w : string) (i : Z) :
  build_vocab data g = (Ok word_to_id, g') → word_to_id !! w = Some i →
  (0 ≤ i < Z.of_nat (size word_to_id))%Z.
Proof.
  intros ->%build_vocab_Ok_inv. apply word_to_id_of_bounds, vocab_words_NoDup.
Qed.

Lemma build_vocab_Ok_markers (data : list string) (g : globals) :
  "<eos>"%string ∈ data → "<pad>"%string ∈ data →
  ∃ eos pad,
    build_vocab data g
    = (Ok (word_to_id_of (count_pairs_of data).*1), globals_after g eos pad).
Proof.
  intros Heos Hpad.
  pose proof (word_to_id_of_is_Some _ "<eos>" (vocab_words_NoDup data)) as He.
  pose proof (word_to_id_of_is_Some _ "<pad>" (vocab_words_NoDup data)) as Hp.
  rewrite vocab_words_elem_of in He, Hp.
  destruct (proj2 He Heos) as [eos Heos'].
  destruct (proj2 Hp Hpad) as [pad Hpad'].
  exists eos, pad. rewrite build_vocab_run, Heos', Hpad'.
  destruct data; [by apply not_elem_of_nil in Heos|done].
Qed.

Lemma build_vocab_Ok_iff (data : list string) (g : globals) :
  (∃ word_to_id g', build_vocab data g = (Ok word_to_id, g')) ↔
  "<eos>"%string ∈ data ∧ "<pad>"%string ∈ data.
Proof.
  split.
  - intros (W & g' & Hrun).
    pose proof (build_vocab_Ok_inv _ _ _ _ Hrun) as ->.
    apply build_vocab_Ok_state in Hrun as (eos & pad & He & Hp & _).
    split; apply vocab_words_elem_of;
      (apply word_to_id_of_is_Some; [apply vocab_words_NoDup|eauto]).
  - intros [Heos Hpad].
    destruct (build_vocab_Ok_markers data g Heos Hpad) as (eos & pad & Hrun).
    eauto.
Qed.

Lemma vocab_size_distinct (data : list string) :
  size (word_to_id_of (count_pairs_of data).*1)
  = size (list_to_set data : gset string).
Proof.
  rewrite <- !size_dom. f_equal. apply set_eq. intros w.
  rewrite elem_of_dom, elem_of_list_to_set.
  rewrite word_to_id_of_is_Some by apply vocab_words_NoDup.
  apply vocab_words_elem_of.
Qed.

End BuildVocabOutcome.

(** X4. On words that are not empty and lack a marker, [build_vocab] raises
    the [KeyError] of the first marker it looks up and does not find,
    ["<eos>"] before ["<pad>"]; the marker ids keep their values, and only
    when ["<eos>"] was found has its line been printed. *)
Theorem build_vocab_missing_marker (data : list string) (g : globals) :
  data ≠ [] → "<eos>"%string ∉ data ∨ "<pad>"%string ∉ data →
  ∃ g',
    build_vocab data g
      = (Raise (KeyError (if decide ("<eos>"%string ∈ data)
                          then "<pad>" else "<eos>")), g') ∧
    EOS_INDEX g' = EOS_INDEX g ∧ PAD_INDEX g' = PAD_INDEX g ∧
    if decide ("<eos>"%string ∈ data)
    then ∃ eos, stdout g' = stdout g ++ [("<eos>:"%string, eos)]
    else stdout g' = stdout g.
Proof.
  intros Hne Hmiss. rewrite build_vocab_run.
  pose proof (word_to_id_of_is_Some _ "<eos>" (vocab_words_NoDup data)) as Heos.
  pose proof (word_to_id_of_is_Some _ "<pad>" (vocab_words_NoDup data)) as Hpad.
  rewrite vocab_words_elem_of in Heos, Hpad.
  destruct data as [|w data]; [done|].
  destruct (decide ("<eos>"%string ∈ w :: data)) as [Hin|Hnin].
  - destruct (proj2 Heos Hin) as [eos ->].
    destruct (_ !! "<pad>"%string) as [pad|] eqn:Hp.
    + exfalso. destruct Hmiss as [?|Hmiss]; [done|]. apply Hmiss, Hpad. eauto.
    + eexists. split; [reflexivity|]. simpl. eauto.
  - destruct (_ !! "<eos>"%string) as [eos|] eqn:He.
    + exfalso. apply Hnin, Heos. eauto.
    + by exists g.
Qed.

Lemma build_vocab_missing_marker_witness :
  let data := ["a"; "b"; "<eos>"; "c"; "<eos>"]%string in
  ∃ g',
    build_vocab data initial_globals
      = (Raise (KeyError (if decide ("<eos>"%string ∈ data)
                          then "<pad>" else "<eos>")), g') ∧
    EOS_INDEX g' = EOS_INDEX initial_globals ∧
    PAD_INDEX g' = PAD_INDEX initial_globals ∧
    if decide ("<eos>"%string ∈ data)
    then ∃ eos, stdout g' = stdout initial_globals ++ [("<eos>:"%string, eos)]
    else stdout g' = stdout initial_globals.
Proof.
  intros data. apply (build_vocab_missing_marker data initial_globals).
  - discriminate.
  - right. apply (bool_decide_unpack _). vm_compute. exact I.
Defined.

(** X5. [build_vocab] returns a vocabulary exactly when both markers are
    among the words. *)
Theorem build_vocab_returns_iff (data : list string) (g : globals) :
  (∃ word_to_id g', build_vocab data g = (Ok word_to_id, g')) ↔
  "<eos>"%string ∈ data ∧ "<pad>"%string ∈ data.
Proof. apply build_vocab_Ok_iff. Qed.

(** X6. When [build_vocab] returns, [EOS_INDEX] and [PAD_INDEX] are the ids
    of the two markers in the vocabulary returned: two different ids, both
    below the size of the vocabulary; and the two lines have been printed. *)
Theorem build_vocab_marker_ids (data : list string) (g g' : globals)
    (word_to_id : gmap string Z) :
  build_vocab data g = (Ok word_to_id, g') →
  word_to_id !! "<eos>"%string = Some (EOS_INDEX g') ∧
  word_to_id !! "<pad>"%string = Some (PAD_INDEX g') ∧
  EOS_INDEX g' ≠ PAD_INDEX g' ∧
  (0 ≤ EOS_INDEX g' < Z.of_nat (size word_to_id))%Z ∧
  (0 ≤ PAD_INDEX g' < Z.of_nat (size word_to_id))%Z ∧
  stdout g' = stdout g ++ [("<eos>:"%string, EOS_INDEX g');
                           ("<pad>:"%string, PAD_INDEX g')].
Proof.
  intros Hrun.
  destruct (build_vocab_Ok_state _ _ _ _ Hrun) as (eos & pad & He & Hp & ->).
  simpl. split; [done|]. split; [done|]. split; [|split; [|split; [|done]]].
  - intros ->. by pose proof (build_vocab_inj _ _ _ _ _ _ _ Hrun He Hp).
  - by eapply build_vocab_bounds.
  - by eapply build_vocab_bounds.
Qed.

Lemma build_vocab_marker_ids_witness :
  let data := ["the"; "<eos>"; "<pad>"; "cat"; "the"; "<eos>"; "<pad>"]%string in
  let word_to_id := word_to_id_of (count_pairs_of data).*1 in
  let g' := globals_after initial_globals 0 1 in
  word_to_id !! "<eos>"%string = Some (EOS_INDEX g') ∧
  word_to_id !! "<pad>"%string = Some (PAD_INDEX g') ∧
  EOS_INDEX g' ≠ PAD_INDEX g' ∧
  (0 ≤ EOS_INDEX g' < Z.of_nat (size word_to_id))%Z ∧
  (0 ≤ PAD_INDEX g' < Z.of_nat (size word_to_id))%Z ∧
  stdout g' = stdout initial_globals ++ [("<eos>:"%string, EOS_INDEX g');
                                         ("<pad>:"%string, PAD_INDEX g')].
Proof.
  intros data word_to_id g'.
  apply (build_vocab_marker_ids data initial_globals g' word_to_id).
  vm_compute. reflexivity.
Defined.

(** ** Encoding a file and loading the three files *)

Section RawDataFacts.

Lemma filter_length_all {A : Type} (P : A → Prop) `{!∀ x, Decision (P x)}
    (l : list A) :
  length (filter P l) = length l ↔ Forall P l.
Proof.
  induction l as [|x l IH]; [by split; [constructor|]|].
  rewrite filter_cons, Forall_cons. pose proof (length_filter P l) as Hle.
  destruct (decide (P x)) as [Hx|Hx]; simpl.
  - rewrite <- IH. split; [intros [=]; done|intros [_ ->]; done].
  - split; [lia|tauto].
Qed.

Lemma ptb_raw_data_run (train valid test : list string) (g : globals) :
  ptb_raw_data train valid test g =
    match build_vocab train g with
    | (Ok word_to_id, g') =>
        (Ok (_file_to_word_ids train word_to_id,
             _file_to_word_ids valid word_to_id,
             _file_to_word_ids test word_to_id,
             Z.of_nat (size word_to_id)), g')
    | (Raise e, g') => (Raise e, g')
    end.
Proof.
  unfold ptb_raw_data. cbv [mbind M_bind].
  by destruct (build_vocab train g) as [[W|e] g'].
Qed.

Lemma file_to_word_ids_in_range (words data : list string) :
  Forall (λ i, (0 ≤ i < Z.of_nat (size (word_to_id_of (count_pairs_of words).*1)))%Z)
    (_file_to_word_ids data (word_to_id_of (count_pairs_of words).*1)).
Proof.
  apply Forall_forall. intros i.
  rewrite file_to_word_ids_omap, list_elem_of_omap. intros (w & _ & Hw).
  eapply word_to_id_of_bounds; [apply vocab_words_NoDup|done].
Qed.

Lemma file_to_word_ids_length_le (data : list string) (word_to_id : gmap string Z) :
  length (_file_to_word_ids data word_to_id) ≤ length data.
Proof. rewrite file_to_word_ids_length. apply length_filter. Qed.

Lemma file_to_word_ids_length_all (data : list string) (word_to_id : gmap string Z) :
  length (_file_to_word_ids data word_to_id) = length data ↔
  Forall (λ w, is_Some (word_to_id !! w)) data.
Proof. rewrite file_to_word_ids_length. apply filter_length_all. Qed.

End RawDataFacts.

(** X7. Every id that [_file_to_word_ids] returns for a vocabulary built by
    [build_vocab] is at least 0 and below the size of the vocabulary. *)
Theorem file_to_word_ids_bounds (vocab_data data : list string) (g g' : globals)
    (word_to_id : gmap string Z) :
  build_vocab vocab_data g = (Ok word_to_id, g') →
  Forall (λ i, (0 ≤ i < Z.of_nat (size word_to_id))%Z)
    (_file_to_word_ids data word_to_id).
Proof. intros ->%build_vocab_Ok_inv. apply file_to_word_ids_in_range. Qed.

Lemma file_to_word_ids_bounds_witness :
  let vocab_data := ["the"; "<eos>"; "<pad>"; "cat"; "the"; "<eos>"; "<pad>"]%string in
  let word_to_id := word_to_id_of (count_pairs_of vocab_data).*1 in
  Forall (λ i, (0 ≤ i < Z.of_nat (size word_to_id))%Z)
    (_file_to_word_ids ["cat"; "dog"; "<eos>"]%string word_to_id).
Proof.
  intros vocab_data word_to_id.
  apply (file_to_word_ids_bounds vocab_data _ initial_globals
           (globals_after initial_globals 0 1) word_to_id).
  vm_compute. reflexivity.
Defined.

(** X8. [_file_to_word_ids] never returns more ids than it was given words,
    and returns as many exactly when every word is in the vocabulary. *)
Theorem file_to_word_ids_length_iff (data : list string)
    (word_to_id : gmap string Z) :
  length (_file_to_word_ids data word_to_id) ≤ length data ∧
  (length (_file_to_word_ids data word_to_id) = length data ↔
   Forall (λ w, is_Some (word_to_id !! w)) data).
Proof.
  split; [apply file_to_word_ids_length_le|apply file_to_word_ids_length_all].
Qed.

(** X9. When the training words hold both markers, [ptb_raw_data] returns:
    the training ids are as many as the training words, no id of the three
    streams is outside [0, vocabulary), and [vocabulary] is the number of
    distinct training words. Words of the other two files that are not in
    the training file are dropped and cause no error. *)
Theorem ptb_raw_data_ok (train valid test : list string) (g : globals) :
  "<eos>"%string ∈ train → "<pad>"%string ∈ train →
  ∃ train_data valid_data test_data vocabulary g',
    ptb_raw_data train valid test g
      = (Ok (train_data, valid_data, test_data, vocabulary), g') ∧
    vocabulary = Z.of_nat (size (list_to_set train : gset string)) ∧
    length train_data = length train ∧
    length valid_data ≤ length valid ∧ length test_data ≤ length test ∧
    Forall (λ i, (0 ≤ i < vocabulary)%Z) (train_data ++ valid_data ++ test_data).
Proof.
  intros Heos Hpad.
  destruct (build_vocab_Ok_markers train g Heos Hpad) as (eos & pad & Hrun).
  rewrite ptb_raw_data_run, Hrun. do 5 eexists. split; [reflexivity|].
  split; [by rewrite vocab_size_distinct|]. split; [|split; [|split]].
  - apply file_to_word_ids_length_all, Forall_forall. intros w Hw.
    apply word_to_id_of_is_Some; [apply vocab_words_NoDup|].
    by apply vocab_words_elem_of.
  - apply file_to_word_ids_length_le.
  - apply file_to_word_ids_length_le.
  - rewrite !Forall_app. repeat split; apply file_to_word_ids_in_range.
Qed.

Lemma ptb_raw_data_ok_witness :
  let train := ["the"; "<eos>"; "<pad>"; "cat"; "the"; "<eos>"; "<pad>"]%string in
  let valid := ["a"; "cat"; "<eos>"; "<pad>"]%string in
  let test := ["dog"]%string in
  ∃ train_data valid_data test_data vocabulary g',
    ptb_raw_data train valid test initial_globals
      = (Ok (train_data, valid_data, test_data, vocabulary), g') ∧
    vocabulary = Z.of_nat (size (list_to_set train : gset string)) ∧
    length train_data = length train ∧
    length valid_data ≤ length valid ∧ length test_data ≤ length test ∧
    Forall (λ i, (0 ≤ i < vocabulary)%Z) (train_data ++ valid_data ++ test_data).
Proof.
  intros train valid test.
  apply (ptb_raw_data_ok train valid test initial_globals).
  - apply (bool_decide_unpack _). vm_compute. exact I.
  - apply (bool_decide_unpack _). vm_compute. exact I.
Defined.

(** X10. [ptb_raw_data] returns exactly when the training words hold both
    markers, whatever the other two files hold; when [build_vocab] raises on
    the training words, [ptb_raw_data] raises the same exception and leaves
    the same state. *)
Theorem ptb_raw_data_returns_iff (train valid test : list string) (g : globals) :
  ((∃ r g', ptb_raw_data train valid test g = (Ok r, g')) ↔
   "<eos>"%string ∈ train ∧ "<pad>"%string ∈ train) ∧
  (∀ e g', build_vocab train g = (Raise e, g') →
           ptb_raw_data train valid test g = (Raise e, g')).
Proof.
  rewrite <- (build_vocab_Ok_iff train g), ptb_raw_data_run.
  split; [|by intros e g' ->].
  destruct (build_vocab train g) as [[W|e] g']; split.
  - eauto.
  - eauto.
  - by intros (r & g'' & [=]).
  - by intros (W & g'' & [=]).
Qed.

(** ** The cut into sentences *)

Section CutFacts.

Lemma cut_after_count (eos : Z) (cur l : list Z) :
  length (cut_after eos cur l) = S (length (filter (λ x, x = eos) l)).
Proof.
  revert cur. induction l as [|x l IH]; intros cur; [done|].
  cbn [cut_after]. rewrite filter_cons.
  destruct (Z.eqb_spec x eos) as [->|Hne].
  - rewrite decide_True by done. simpl. by rewrite IH.
  - rewrite decide_False by done. apply IH.
Qed.

Lemma cut_after_shape (eos : Z) (cur l : list Z) :
  eos ∉ cur →
  ∃ init lst,
    cut_after eos cur l = init ++ [lst] ∧
    Forall (λ s, ∃ body, s = body ++ [eos] ∧ eos ∉ body) init ∧
    eos ∉ lst.
Proof.
  revert cur. induction l as [|x l IH]; intros cur Hcur.
  - by exists [], cur.
  - cbn [cut_after]. destruct (Z.eqb_spec x eos) as [->|Hne].
    + destruct (IH [] (not_elem_of_nil _)) as (init & lst & -> & Hinit & Hlst).
      exists ((cur ++ [eos]) :: init), lst. split; [done|]. split; [|done].
      constructor; [by exists cur|done].
    + apply IH. rewrite elem_of_app, list_elem_of_singleton.
      intros [?|?]; [done|congruence].
Qed.

Lemma cut_after_trailing (eos : Z) (cur l : list Z) :
  last (cut_after eos cur (l ++ [eos])) = Some [].
Proof.
  revert cur. induction l as [|x l IH]; intros cur.
  - cbn [app cut_after]. by rewrite Z.eqb_refl.
  - cbn [app cut_after]. destruct (x =? eos)%Z; [|apply IH].
    rewrite last_cons, IH. done.
Qed.

Lemma np_array_int32_small (raw_data : list Z) :
  Forall (λ z, (- 2 ^ 31 ≤ z < 2 ^ 31)%Z) raw_data →
  np_array_int32 raw_data = raw_data.
Proof.
  intros Hall. unfold np_array_int32.
  rewrite <- (list_fmap_id raw_data) at 2.
  apply Forall_fmap_ext. eapply Forall_impl; [exact Hall|].
  intros z Hz. by apply int32_small.
Qed.

Lemma pad_row_nil (width : nat) (pad : Z) : pad_row width pad [] = replicate width pad.
Proof. unfold pad_row. rewrite take_nil. simpl. by rewrite Nat.sub_0_r. Qed.

End CutFacts.

(** X11. The sentences of line 109, one after the other, are the stream as
    the [int32] array holds it: no id is lost, added or moved; for ids
    inside the 32-bit range they are the stream itself. *)
Theorem sentences_concat (raw_data : list Z) (g : globals) :
  concat (sentences_of raw_data g) = np_array_int32 raw_data ∧
  (Forall (λ z, (- 2 ^ 31 ≤ z < 2 ^ 31)%Z) raw_data →
   concat (sentences_of raw_data g) = raw_data).
Proof.
  rewrite sentences_of_cut_after, cut_after_concat. split; [done|].
  intros Hall. by rewrite np_array_int32_small.
Qed.

(** X12. There is one sentence more than there are entries equal to
    [EOS_INDEX] in the array: also the empty stream has one sentence. *)
Theorem sentences_count (raw_data : list Z) (g : globals) :
  length (sentences_of raw_data g)
  = S (length (filter (λ x, x = EOS_INDEX g) (np_array_int32 raw_data))).
Proof. rewrite sentences_of_cut_after. apply cut_after_count. Qed.

(** X13. Every sentence but the last ends with the end-of-sequence id and
    holds it nowhere else; the last sentence does not hold it at all. *)
Theorem sentences_shape (raw_data : list Z) (g : globals) :
  ∃ init lst,
    sentences_of raw_data g = init ++ [lst] ∧
    Forall (λ s, ∃ body, s = body ++ [EOS_INDEX g] ∧ EOS_INDEX g ∉ body) init ∧
    EOS_INDEX g ∉ lst.
Proof.
  rewrite sentences_of_cut_after. apply cut_after_shape, not_elem_of_nil.
Qed.

(** X14. When the stream ends with the end-of-sequence id, the last sentence
    is empty, and the last row of the padded matrix holds the pad id in
    every column. *)
Theorem trailing_sentence_empty (body : list Z) (e sequence_length : Z)
    (g : globals) :
  int32 e = EOS_INDEX g → (0 ≤ sequence_length + 1)%Z →
  last (sentences_of (body ++ [e]) g) = Some [] ∧
  last (padded_matrix (sentences_of (body ++ [e]) g) sequence_length g)
  = Some (replicate (Z.to_nat (sequence_length + 1)) (int32 (PAD_INDEX g))).
Proof.
  intros He HL.
  assert (last (sentences_of (body ++ [e]) g) = Some []) as Hlast.
  { rewrite sentences_of_cut_after. unfold np_array_int32.
    rewrite fmap_app. cbn [fmap list_fmap]. rewrite He.
    apply cut_after_trailing. }
  split; [done|].
  rewrite padded_matrix_pad_row, fmap_last, Hlast by done. simpl.
  by rewrite pad_row_nil.
Qed.

Lemma trailing_sentence_empty_witness :
  last (sentences_of ([1; 2] ++ [0])%Z initial_globals) = Some [] ∧
  last (padded_matrix (sentences_of ([1; 2] ++ [0])%Z initial_globals) 2
          initial_globals)
  = Some (replicate (Z.to_nat (2 + 1)) (int32 (PAD_INDEX initial_globals))).
Proof.
  apply (trailing_sentence_empty [1; 2]%Z 0 2 initial_globals).
  - reflexivity.
  - lia.
Defined.

(** ** How [ptb_iterator] ends, and the pipeline *)

Section PipelineFacts.

Lemma vocab_size_le (data : list string) :
  size (word_to_id_of (count_pairs_of data).*1) ≤ length data.
Proof.
  rewrite word_to_id_of_size by apply vocab_words_NoDup.
  apply submseteq_length, NoDup_submseteq; [apply vocab_words_NoDup|].
  intros w. by rewrite vocab_words_elem_of.
Qed.

(** Among the ids of an injective vocabulary that holds [marker], the ones
    equal to the id of [marker] come from the occurrences of [marker]. *)
Lemma file_to_word_ids_count (word_to_id : gmap string Z) (marker : string)
    (i : Z) (data : list string) :
  (∀ w1 w2 j, word_to_id !! w1 = Some j → word_to_id !! w2 = Some j → w1 = w2) →
  word_to_id !! marker = Some i →
  length (filter (λ x, x = i) (_file_to_word_ids data word_to_id))
  = length (filter (λ w, w = marker) data).
Proof.
  intros Hinj Hm. induction data as [|w data IH]; [done|].
  rewrite file_to_word_ids_cons, (filter_cons _ w).
  destruct (decide (w = marker)) as [->|Hne].
  - rewrite Hm, filter_cons, decide_True by done. simpl. by rewrite IH.
  - destruct (word_to_id !! w) as [j|] eqn:Hw; [|done].
    rewrite filter_cons, decide_False; [done|].
    intros ->. apply Hne. by eapply Hinj.
Qed.

End PipelineFacts.

(** X15. For a stream of ids inside the 32-bit range of the array, a pad id
    inside that range and a matrix whose size fits, how [ptb_iterator] ends
    is decided in a fixed order: a [sequence_length] below -1 gives the
    [ValueError] of the allocation; else a truthy override gives
    [NotImplementedError]; else a [batch_size] of 0 gives
    [ZeroDivisionError]; else the iteration ends normally. Whenever it ends
    with an exception, no batch was yielded before. *)
Theorem ptb_iterator_exceptions (raw_data : list Z) (batch_size sequence_length : Z)
    (epoch_size_override : pyval) (g : globals) :
  Forall (λ z, (- 2 ^ 31 ≤ z < 2 ^ 31)%Z) raw_data →
  (- 2 ^ 31 ≤ PAD_INDEX g < 2 ^ 31)%Z →
  (len (sentences_of raw_data g) * (sequence_length + 1) * 4 < 2 ^ 63)%Z →
  let r := ptb_iterator raw_data batch_size sequence_length epoch_size_override g in
  (r.2 = Some ValueError ↔ (sequence_length < -1)%Z) ∧
  (r.2 = Some NotImplementedError ↔
   (-1 ≤ sequence_length)%Z ∧ truthy epoch_size_override = true) ∧
  (r.2 = Some ZeroDivisionError ↔
   (-1 ≤ sequence_length)%Z ∧ truthy epoch_size_override = false ∧
   batch_size = 0%Z) ∧
  (r.2 = None ↔
   (-1 ≤ sequence_length)%Z ∧ truthy epoch_size_override = false ∧
   batch_size ≠ 0%Z) ∧
  (r.2 ≠ None → r.1 = []).
Proof.
  intros Hids Hpad Hsize r.
  assert (r.2 ≠ None → r.1 = []) as Hnone by apply ptb_iterator_raise_no_batch.
  revert Hnone. subst r. unfold ptb_iterator.
  rewrite np_array_result_int32 by done.
  change (split_sentences (np_array_int32 raw_data) g)
    with (sentences_of raw_data g).
  destruct (Z.ltb_spec (sequence_length + 1) 0) as [HL|HL].
  - unfold np_full_result.
    rewrite (proj2 (Z.ltb_lt (sequence_length + 1) 0)) by lia.
    rewrite orb_true_r. cbn [fst snd]. intros Hnone.
    repeat split; try done; try lia; try (intros; lia);
      try (by intros [? ?]); try (by intros (? & ? & ?)).
  - rewrite np_full_result_int32 by (done || unfold len; lia).
    destruct (truthy epoch_size_override);
      [|destruct (Z.eqb_spec batch_size 0) as [Hbs|Hbs]];
      cbn [fst snd]; intros Hnone;
      repeat split; try done; try lia; try (intros; lia);
      try (by intros [? ?]); try (by intros (? & ? & ?)).
Qed.

Lemma ptb_iterator_exceptions_witness :
  let r := ptb_iterator [1; 2; 0]%Z 0 2 PyNone initial_globals in
  (r.2 = Some ValueError ↔ (2 < -1)%Z) ∧
  (r.2 = Some NotImplementedError ↔ (-1 ≤ 2)%Z ∧ truthy PyNone = true) ∧
  (r.2 = Some ZeroDivisionError ↔
   (-1 ≤ 2)%Z ∧ truthy PyNone = false ∧ 0%Z = 0%Z) ∧
  (r.2 = None ↔ (-1 ≤ 2)%Z ∧ truthy PyNone = false ∧ 0%Z ≠ 0%Z) ∧
  (r.2 ≠ None → r.1 = []).
Proof.
  apply (ptb_iterator_exceptions [1; 2; 0]%Z 0 2 PyNone initial_globals).
  - apply (bool_decide_unpack _). vm_compute. exact I.
  - simpl. lia.
  - vm_compute. reflexivity.
Defined.

(** X16. A negative [batch_size] is no error: for a stream of ids inside the
    32-bit range of the array, a pad id inside that range and a matrix whose
    size fits, without an override, and for a [sequence_length] of at least
    -1, no batch is yielded and the iteration ends normally. *)
Theorem ptb_iterator_negative_batch_size (raw_data : list Z)
    (batch_size sequence_length : Z) (epoch_size_override : pyval) (g : globals) :
  (batch_size < 0)%Z → (-1 ≤ sequence_length)%Z →
  truthy epoch_size_override = false →
  Forall (λ z, (- 2 ^ 31 ≤ z < 2 ^ 31)%Z) raw_data →
  (- 2 ^ 31 ≤ PAD_INDEX g < 2 ^ 31)%Z →
  (len (sentences_of raw_data g) * (sequence_length + 1) * 4 < 2 ^ 63)%Z →
  ptb_iterator raw_data batch_size sequence_length epoch_size_override g
  = ([], None).
Proof.
  intros Hbs HL Hov Hids Hpad Hsize.
  rewrite ptb_iterator_run by (done || lia).
  pose proof (sentences_of_length raw_data g) as Hlen.
  assert (len (sentences_of raw_data g) / batch_size < 0)%Z as Hneg.
  { unfold len.
    pose proof (Z.div_mod (Z.of_nat (length (sentences_of raw_data g)))
                  batch_size ltac:(lia)) as Hdm.
    pose proof (Z.mod_neg_bound (Z.of_nat (length (sentences_of raw_data g)))
                  batch_size Hbs) as Hmod.
    nia. }
  unfold range. by rewrite Z2Nat.nonpos by lia.
Qed.

Lemma ptb_iterator_negative_batch_size_witness :
  ptb_iterator [1; 2; 0; 3; 0]%Z (-2) 2 PyNone initial_globals = ([], None).
Proof.
  apply (ptb_iterator_negative_batch_size [1; 2; 0; 3; 0]%Z (-2) 2 PyNone
           initial_globals).
  - lia.
  - lia.
  - reflexivity.
  - apply (bool_decide_unpack _). vm_compute. exact I.
  - simpl. lia.
  - vm_compute. reflexivity.
Defined.

(** X17. After [build_vocab] has returned on fewer than 2^31 words, the
    stream that [_file_to_word_ids] makes of any words is cut by line 109
    into one sentence more than these words hold ["<eos>"]: the words that
    are dropped never change the number of sentences. *)
Theorem pipeline_sentence_count (vocab_data data : list string) (g g' : globals)
    (word_to_id : gmap string Z) :
  build_vocab vocab_data g = (Ok word_to_id, g') →
  (len vocab_data < 2 ^ 31)%Z →
  length (sentences_of (_file_to_word_ids data word_to_id) g')
  = S (length (filter (λ w, w = "<eos>"%string) data)).
Proof.
  intros Hrun Hsmall.
  destruct (build_vocab_Ok_state _ _ _ _ Hrun) as (eos & pad & He & Hp & ->).
  rewrite sentences_of_cut_after, cut_after_count. f_equal.
  rewrite np_array_int32_small.
  - apply file_to_word_ids_count; [|done].
    intros w1 w2 j. by eapply build_vocab_inj.
  - pose proof (build_vocab_Ok_inv _ _ _ _ Hrun) as ->.
    eapply Forall_impl; [apply file_to_word_ids_in_range|].
    intros i Hi. simpl in Hi.
    pose proof (vocab_size_le vocab_data). unfold len in Hsmall. lia.
Qed.

Lemma pipeline_sentence_count_witness :
  let vocab_data := ["the"; "<eos>"; "<pad>"; "cat"; "the"; "<eos>"; "<pad>"]%string in
  let word_to_id := word_to_id_of (count_pairs_of vocab_data).*1 in
  let data := ["a"; "cat"; "<eos>"; "<pad>"; "dog"; "<eos>"; "<pad>"]%string in
  length (sentences_of (_file_to_word_ids data word_to_id)
            (globals_after initial_globals 0 1))
  = S (length (filter (λ w, w = "<eos>"%string) data)).
Proof.
  intros vocab_data word_to_id data.
  apply (pipeline_sentence_count vocab_data data initial_globals
           (globals_after initial_globals 0 1) word_to_id).
  - vm_compute. reflexivity.
  - vm_compute. reflexivity.
Defined.
